(** * x-cloud: the text analysis engine of [src/util.ts]

    A shallow embedding of [analyse] and of the module-level tables it
    uses ([ignore_list], [HAN_REGEX], [HIRAGANA_REGEX], [ALL_ASCII],
    [FIAT_REGEX], [replaces_regex], [aliases_regex]), followed by the
    properties of the engine.

    JavaScript strings are sequences of UTF-16 code units, numbers are
    IEEE 754 binary64 values, and property lookup on a plain object walks
    the prototype chain; the embedding keeps all three. *)

From Stdlib Require Import Ascii String List NArith ZArith Bool Lia.
From Stdlib Require Import Floats.SpecFloat.
Import ListNotations.

Set Implicit Arguments.

(** ** The JavaScript runtime, as far as [util.ts] uses it *)

Module JS.

(** A string is its sequence of UTF-16 code units. *)
Definition jsstring := list N.

(** String literals of the source (all of them ASCII). *)
Definition lit (s : string) : jsstring :=
  map N_of_ascii (list_ascii_of_string s).

(** [===] on strings. *)
Fixpoint str_eqb (a b : jsstring) : bool :=
  match a, b with
  | [], [] => true
  | x :: a', y :: b' => N.eqb x y && str_eqb a' b'
  | _, _ => false
  end.

Definition in_range (lo hi c : N) : bool := N.leb lo c && N.leb c hi.

(** Code points of a string, as a regular expression with the [u] flag
    reads them: a lead surrogate followed by a trail surrogate is one
    code point, any other code unit stands for itself. *)
Fixpoint code_points (s : jsstring) : list N :=
  match s with
  | [] => []
  | hi :: rest =>
      match rest with
      | lo :: rest' =>
          if in_range 0xD800 0xDBFF hi && in_range 0xDC00 0xDFFF lo
          then (0x10000 + (hi - 0xD800) * 0x400 + (lo - 0xDC00))%N :: code_points rest'
          else hi :: code_points rest
      | [] => [hi]
      end
  end.

(** [\w] without the [u] and [i] flags. *)
Definition word_char (c : N) : bool :=
  in_range 97 122 c || in_range 65 90 c || in_range 48 57 c || N.eqb c 95.

(** Line terminators, which [.] does not match. *)
Definition line_terminator (c : N) : bool :=
  N.eqb c 0x0A || N.eqb c 0x0D || N.eqb c 0x2028 || N.eqb c 0x2029.

(** WhiteSpace and LineTerminator code units: what [trim] removes and
    what [Number] skips around a numeric literal. *)
Definition white_space (c : N) : bool :=
  N.eqb c 0x09 || N.eqb c 0x0B || N.eqb c 0x0C || N.eqb c 0x20 ||
  N.eqb c 0xA0 || N.eqb c 0x1680 || in_range 0x2000 0x200A c ||
  N.eqb c 0x202F || N.eqb c 0x205F || N.eqb c 0x3000 || N.eqb c 0xFEFF ||
  line_terminator c.

Fixpoint trim_start (s : jsstring) : jsstring :=
  match s with
  | c :: s' => if white_space c then trim_start s' else s
  | [] => []
  end.

(** [String.prototype.trim]. *)
Definition trim (s : jsstring) : jsstring :=
  rev (trim_start (rev (trim_start s))).

(** [s.split("\n")]: never empty, the empty string gives one empty piece. *)
Fixpoint split_lines (s : jsstring) : list jsstring :=
  match s with
  | [] => [[]]
  | c :: s' =>
      if N.eqb c 0x0A then [] :: split_lines s'
      else match split_lines s' with
           | l :: ls => (c :: l) :: ls
           | [] => [[c]]
           end
  end.

(** [parts.join(sep)]. *)
Fixpoint join (sep : jsstring) (parts : list jsstring) : jsstring :=
  match parts with
  | [] => []
  | [p] => p
  | p :: ps => p ++ sep ++ join sep ps
  end.

(** [s.slice(0, -1)]. *)
Definition drop_last (s : jsstring) : jsstring := removelast s.

(** [xs.slice(from, to)] for [0 <= from]. *)
Definition slice {A} (xs : list A) (from to : nat) : list A :=
  firstn (to - from) (skipn from xs).

(** If [p] is a prefix of [s], what follows it. *)
Fixpoint strip_prefix (p s : jsstring) : option jsstring :=
  match p with
  | [] => Some s
  | x :: p' =>
      match s with
      | y :: s' => if N.eqb x y then strip_prefix p' s' else None
      | [] => None
      end
  end.

(** *** [Number(s)] on strings: is the result [NaN]? *)

Definition digit (c : N) : bool := in_range 48 57 c.
Definition hex_digit (c : N) : bool :=
  digit c || in_range 97 102 c || in_range 65 70 c.
Definition octal_digit (c : N) : bool := in_range 48 55 c.
Definition binary_digit (c : N) : bool := in_range 48 49 c.

Fixpoint span (p : N -> bool) (s : jsstring) : jsstring * jsstring :=
  match s with
  | c :: s' => if p c then let (a, b) := span p s' in (c :: a, b) else ([], s)
  | [] => ([], [])
  end.

Definition nonempty (s : jsstring) : bool :=
  match s with [] => false | _ => true end.

Definition digits1 (p : N -> bool) (s : jsstring) : bool :=
  nonempty s && forallb p s.

(** ExponentPart, or nothing. *)
Definition exponent_opt (s : jsstring) : bool :=
  match s with
  | [] => true
  | e :: r =>
      (N.eqb e 101 || N.eqb e 69) &&
      match r with
      | sg :: r' => if N.eqb sg 43 || N.eqb sg 45 then digits1 digit r' else digits1 digit r
      | [] => false
      end
  end.

(** StrUnsignedDecimalLiteral. *)
Definition unsigned_decimal (s : jsstring) : bool :=
  str_eqb s (lit "Infinity") ||
  let (int, r) := span digit s in
  match r with
  | c :: r1 =>
      if N.eqb c 46
      then let (frac, r2) := span digit r1 in
           (nonempty int || nonempty frac) && exponent_opt r2
      else nonempty int && exponent_opt r
  | [] => nonempty int
  end.

(** StrNumericLiteral: a signed decimal, or an unsigned binary, octal or
    hexadecimal integer. *)
Definition numeric_literal (s : jsstring) : bool :=
  match s with
  | c0 :: c1 :: r =>
      if N.eqb c0 48 && (N.eqb c1 120 || N.eqb c1 88) then digits1 hex_digit r
      else if N.eqb c0 48 && (N.eqb c1 111 || N.eqb c1 79) then digits1 octal_digit r
      else if N.eqb c0 48 && (N.eqb c1 98 || N.eqb c1 66) then digits1 binary_digit r
      else if N.eqb c0 43 || N.eqb c0 45 then unsigned_decimal (c1 :: r)
      else unsigned_decimal s
  | _ => unsigned_decimal s
  end.

(** [Number.isNaN(Number(s))]: the trimmed string is neither empty (which
    converts to 0) nor a numeric literal. *)
Definition number_is_nan (s : jsstring) : bool :=
  let t := trim s in
  nonempty t && negb (numeric_literal t).

(** *** Numbers *)

(** binary64. *)
Definition number := spec_float.

(** An array or string length as a number (exact below 2^53). *)
Definition of_length (n : nat) : number :=
  binary_normalize 53 1024 (Z.of_nat n) 0 false.

Definition mul (x y : number) : number := SFmul 53 1024 x y.

(** [Math.floor]. *)
Definition floor (x : number) : number :=
  match x with
  | S754_finite s m e =>
      let v := if s then Z.neg m else Z.pos m in
      let f := if Z.leb 0 e then Z.shiftl v e else Z.div v (Z.pow 2 (- e)) in
      binary_normalize 53 1024 f 0 s
  | _ => x
  end.

(** [x > y]. *)
Definition gt (x y : number) : bool := SFltb y x.

(** The literals [0.5] and [0.6]. *)
Definition half : number := S754_finite false 4503599627370496 (-53).
Definition six_tenths : number := S754_finite false 5404319552844595 (-53).


(** *** Character classes of the module-level regular expressions *)

(** [\p{Unified_Ideograph}].  The set is the one of the Unicode version
    of the runtime; these are the ranges of PropList.txt of Unicode
    15.1, and later versions add code points above U+2B739.  What is
    proved below uses of it only that no ASCII character is in it, and
    its value on the characters of the examples. *)
Definition unified_ideograph (c : N) : bool :=
  in_range 0x3400 0x4DBF c || in_range 0x4E00 0x9FFF c ||
  in_range 0xFA0E 0xFA0F c || N.eqb c 0xFA11 || in_range 0xFA13 0xFA14 c ||
  N.eqb c 0xFA1F || N.eqb c 0xFA21 || in_range 0xFA23 0xFA24 c ||
  in_range 0xFA27 0xFA29 c ||
  in_range 0x20000 0x2A6DF c || in_range 0x2A700 0x2B739 c ||
  in_range 0x2B740 0x2B81D c || in_range 0x2B820 0x2CEA1 c ||
  in_range 0x2CEB0 0x2EBE0 c || in_range 0x2EBF0 0x2EE5D c ||
  in_range 0x30000 0x3134A c || in_range 0x31350 0x323AF c.

(** The first class of [HAN_REGEX]; the variation selector after it is
    optional, so it decides alone whether the expression matches. *)
Definition han_char (c : N) : bool :=
  unified_ideograph c || N.eqb c 0x3006 || N.eqb c 0x3007.

(** The alternatives of [HIRAGANA_REGEX]. *)
Definition hiragana_char (c : N) : bool :=
  in_range 0x3000 0x303F c || in_range 0x3040 0x309F c ||
  in_range 0x30A0 0x30FF c || in_range 0xFF00 0xFFEF c ||
  in_range 0x4E00 0x9FAF c || in_range 0x2605 0x2606 c ||
  in_range 0x2190 0x2195 c || N.eqb c 0x203B.

(** [!!s.match(re)] for a one-character expression with the [g] and [u]
    flags: [match] starts from index 0 whatever [lastIndex] was. *)
Definition matches_class (class : N -> bool) (s : jsstring) : bool :=
  existsb class (code_points s).

(** [!!s.match(/^[\x00-\x7F]+$/)]. *)
Definition all_ascii (s : jsstring) : bool :=
  nonempty s && forallb (in_range 0x00 0x7F) s.

(** [s.replace(/[...]/g, "")] for a class of code units. *)
Definition remove_class (class : N -> bool) (s : jsstring) : jsstring :=
  filter (fun c => negb (class c)) s.

(** *** Global replacement by an alternation of escaped literals

    [escape_regex] turns every key into a pattern that matches the key
    itself, so [new RegExp(keys.map(escape_regex).join("|"), "g")] is an
    ordered choice between literals; an empty list of keys gives the
    empty pattern.  Each alternative is paired with the text that
    replaces its match. *)

Definition alternatives (dflt : jsstring) (t : list (jsstring * jsstring))
  : list (jsstring * jsstring) :=
  match t with
  | [] => [([], dflt)]
  | _ => t
  end.

Definition is_prefix (p s : jsstring) : bool :=
  match strip_prefix p s with Some _ => true | None => false end.

(** [skip] counts the code units of the current match still to be
    consumed; an empty match copies one code unit and moves on. *)
Fixpoint replace_alt (alts : list (jsstring * jsstring)) (skip : nat)
    (s : jsstring) : jsstring :=
  match skip with
  | S k => match s with [] => [] | _ :: s' => replace_alt alts k s' end
  | O =>
      match find (fun kv => is_prefix (fst kv) s) alts with
      | Some (key, rep) =>
          rep ++
          match s with
          | [] => []
          | c :: s' =>
              match key with
              | [] => c :: replace_alt alts 0 s'
              | _ :: key' => replace_alt alts (length key') s'
              end
          end
      | None =>
          match s with [] => [] | c :: s' => c :: replace_alt alts 0 s' end
      end
  end.

(** [\b] between two neighbours (absent at either end of the string). *)
Definition is_word (c : option N) : bool :=
  match c with Some c => word_char c | None => false end.

Definition boundary (prev next : option N) : bool :=
  xorb (is_word prev) (is_word next).

(** One alternative of ["\\b(" + keys + ")\\b"] at the current position. *)
Definition bounded_match (prev : option N) (key s : jsstring) : bool :=
  boundary prev (hd_error s) &&
  match strip_prefix key s with
  | Some rest =>
      boundary (match key with [] => prev | _ => Some (last key 0%N) end)
               (hd_error rest)
  | None => false
  end.

Fixpoint replace_bounded (alts : list (jsstring * jsstring))
    (prev : option N) (skip : nat) (s : jsstring) : jsstring :=
  match skip with
  | S k =>
      match s with
      | [] => []
      | c :: s' => replace_bounded alts (Some c) k s'
      end
  | O =>
      match find (fun kv => bounded_match prev (fst kv) s) alts with
      | Some (key, rep) =>
          rep ++
          match s with
          | [] => []
          | c :: s' =>
              match key with
              | [] => c :: replace_bounded alts (Some c) 0 s'
              | _ :: key' => replace_bounded alts (Some c) (length key') s'
              end
          end
      | None =>
          match s with
          | [] => []
          | c :: s' => c :: replace_bounded alts (Some c) 0 s'
          end
      end
  end.

(** *** The two literal expressions of the normalizer *)

Definition url_char (c : N) : bool :=
  in_range 97 122 c || in_range 65 90 c || digit c || N.eqb c 46 || N.eqb c 45.

(** [:\/\/t.co\/[a-zA-Z0-9\.-]*] at the head of [s]: length of the match. *)
Definition tco_tail (s : jsstring) : option nat :=
  match strip_prefix (lit "://t") s with
  | Some (d :: r) =>
      if line_terminator d then None
      else match strip_prefix (lit "co/") r with
           | Some r' => Some (8 + length (fst (span url_char r')))
           | None => None
           end
  | _ => None
  end.

(** [https?:\/\/t.co\/[a-zA-Z0-9\.-]*] at the head of [s]. *)
Definition tco_match (s : jsstring) : option nat :=
  match strip_prefix (lit "http") s with
  | Some r =>
      let with_s :=
        match r with
        | c :: r' => if N.eqb c 115 then tco_tail r' else None
        | [] => None
        end in
      match with_s with
      | Some n => Some (5 + n)
      | None => match tco_tail r with Some n => Some (4 + n) | None => None end
      end
  | None => None
  end.

(** [s.replace(/https?:\/\/t.co\/[a-zA-Z0-9\.-]*/g, "")]. *)
Fixpoint remove_tco (skip : nat) (s : jsstring) : jsstring :=
  match s with
  | [] => []
  | c :: s' =>
      match skip with
      | S k => remove_tco k s'
      | O =>
          match tco_match s with
          | Some n => remove_tco (pred n) s'
          | None => c :: remove_tco 0 s'
          end
      end
  end.

(** [s.replace(/(\w)'s/g, "$1 is")]. *)
Fixpoint expand_possessive (s : jsstring) : jsstring :=
  match s with
  | [] => []
  | c :: t =>
      match t with
      | q :: t2 =>
          match t2 with
          | x :: r =>
              if word_char c && N.eqb q 39 && N.eqb x 115
              then c :: lit " is" ++ expand_possessive r
              else c :: expand_possessive t
          | [] => c :: expand_possessive t
          end
      | [] => c :: expand_possessive t
      end
  end.

(** *** Plain objects used as tables

    [config.replaces] and [config.aliases] come from a JSON module: plain
    objects with string values whose prototype is [Object.prototype].  A
    table is the list of its own properties in [Object.keys] order. *)

Definition table := list (jsstring * jsstring).

(** What a property read can give here: a string, or a member of
    [Object.prototype] reached through the prototype chain (a function,
    or the prototype object itself for [__proto__]). *)
Inductive value :=
| VString (s : jsstring)
| VInherited (key : jsstring).

Definition object_prototype_keys : list jsstring :=
  map lit
    ["constructor"; "__defineGetter__"; "__defineSetter__"; "hasOwnProperty";
     "__lookupGetter__"; "__lookupSetter__"; "isPrototypeOf";
     "propertyIsEnumerable"; "toString"; "valueOf"; "__proto__";
     "toLocaleString"]%string.

Definition get_own (t : table) (k : jsstring) : option jsstring :=
  match find (fun kv => str_eqb (fst kv) k) t with
  | Some (_, v) => Some v
  | None => None
  end.

(** [k in t]: own or inherited. *)
Definition has_property (t : table) (k : jsstring) : bool :=
  match get_own t k with
  | Some _ => true
  | None => existsb (str_eqb k) object_prototype_keys
  end.

(** [t[k]] when [k in t]. *)
Definition get (t : table) (k : jsstring) : value :=
  match get_own t k with
  | Some v => VString v
  | None => VInherited k
  end.

(** SameValueZero on these values: strings by content, the members of
    [Object.prototype] by identity. *)
Definition value_eqb (a b : value) : bool :=
  match a, b with
  | VString x, VString y => str_eqb x y
  | VInherited x, VInherited y => str_eqb x y
  | _, _ => false
  end.

(** [set.add(x)] on the elements of a [Set], in insertion order. *)
Definition add_unique (acc : list value) (x : value) : list value :=
  if existsb (value_eqb x) acc then acc else acc ++ [x].

(** [[...new Set(xs)]]: first occurrences, in insertion order. *)
Definition unique (xs : list value) : list value :=
  fold_left add_unique xs [].

(** *** [encodeURIComponent] *)

(** The characters it leaves alone: letters, digits and [- _ . ! ~ * ' ( )]. *)
Definition uri_unescaped (c : N) : bool :=
  in_range 97 122 c || in_range 65 90 c || digit c ||
  existsb (N.eqb c) (lit "-_.!~*'()").

(** One hexadecimal digit, in upper case. *)
Definition hex_upper (n : N) : N :=
  if N.ltb n 10 then (48 + n)%N else (55 + n)%N.

(** [%XX] for one octet. *)
Definition percent (octet : N) : jsstring :=
  [37%N; hex_upper (octet / 16); hex_upper (octet mod 16)].

(** The octets of a code point in UTF-8. *)
Definition utf8 (cp : N) : list N :=
  if N.ltb cp 0x80 then [cp]
  else if N.ltb cp 0x800 then
    [0xC0 + cp / 0x40; 0x80 + cp mod 0x40]%N
  else if N.ltb cp 0x10000 then
    [0xE0 + cp / 0x1000; 0x80 + (cp / 0x40) mod 0x40; 0x80 + cp mod 0x40]%N
  else
    [0xF0 + cp / 0x40000; 0x80 + (cp / 0x1000) mod 0x40;
     0x80 + (cp / 0x40) mod 0x40; 0x80 + cp mod 0x40]%N.

(** [encodeURIComponent(s)]; [None] when it throws a [URIError], which
    it does on a surrogate that is not part of a pair. *)
Fixpoint encodeURIComponent (s : jsstring) : option jsstring :=
  match s with
  | [] => Some []
  | c :: rest =>
      if uri_unescaped c
      then option_map (cons c) (encodeURIComponent rest)
      else if in_range 0xDC00 0xDFFF c then None
      else if in_range 0xD800 0xDBFF c then
        match rest with
        | lo :: rest' =>
            if in_range 0xDC00 0xDFFF lo
            then option_map
                   (app (flat_map percent
                           (utf8 (0x10000 + (c - 0xD800) * 0x400 + (lo - 0xDC00))%N)))
                   (encodeURIComponent rest')
            else None
        | [] => None
        end
      else option_map (app (flat_map percent (utf8 c))) (encodeURIComponent rest)
  end.

(** [s.replace(/c/g, by)] for one character [c]. *)
Definition replace_char (c : N) (by_ : jsstring) (s : jsstring) : jsstring :=
  flat_map (fun x => if N.eqb x c then by_ else [x]) s.

End JS.

(** ** [util.ts] *)

Module Util.
Import JS.

(** One element of [[...segmenter.segment(text)]]. *)
Record Segment := {
  segment : jsstring;
  isWordLike : bool
}.

(** [config.json]. *)
Record Config := {
  replaces : table;
  aliases : table;
  terms : list jsstring;
  hanzi_percentage : number;
  ignore_all_hanzi : bool;
  ignore_all_hiragana : bool
}.

(** What the module reads or calls and does not define: the two JSON
    modules, the ignore-list file, and the library functions. *)
Record Env := {
  config : Config;
  (** [cmc.fiat.map((x) => x.sign)] *)
  cmc_fiat_signs : list jsstring;
  (** [readFileSync(config.ignore_list_path, "utf8")] *)
  ignore_list_file : jsstring;
  (** [String.prototype.toLowerCase] *)
  toLowerCase : jsstring -> jsstring;
  (** [[...segmenter.segment(text)]] of [Intl.Segmenter] *)
  segmenter_segment : jsstring -> list Segment;
  (** the OpenCC converter from [hk] to [cn] *)
  traditional_to_simplfiied : jsstring -> jsstring;
  (** [pluralize(word, count)] *)
  pluralize : jsstring -> nat -> jsstring
}.

(** The argument [{ no_filter }: { no_filter?: boolean } = { no_filter: false }]:
    [None] when the argument is left out, [Some o] for an object whose
    [no_filter] property is absent ([None]) or a boolean. *)
Definition Options := option (option bool).

Definition no_filter (options : Options) : bool :=
  match options with
  | Some (Some b) => b
  | Some None => false
  | None => false
  end.

(** The value [analyse] returns. *)
Record Result := {
  is_chinese : bool;
  words : list value
}.

(** How a call of [analyse] ends. *)
Inductive Completion :=
| Return (r : Result)
| ThrowTypeError.

Section Engine.

Variable E : Env.

Let cfg := config E.

(** [ignore_list]: the elements of the set. *)
Definition ignore_list : list jsstring :=
  flat_map
    (fun word =>
       [word; pluralize E word 0; word ++ lit "ing";
        drop_last word ++ lit "ing"; word ++ lit "d"; word ++ lit "ed"])
    (map trim (split_lines (ignore_list_file E))).

(** [ignore_list.has(w)]. *)
Definition ignore_list_has (w : jsstring) : bool :=
  existsb (str_eqb w) ignore_list.

(** [s.replace(FIAT_REGEX, "")]. *)
Definition strip_fiat (s : jsstring) : jsstring :=
  replace_alt (alternatives [] (map (fun sign => (sign, [])) (cmc_fiat_signs E))) 0 s.

(** [s.replace(replaces_regex, (match) => config.replaces[match])]; with
    no key the pattern is empty and the callback returns [undefined]. *)
Definition apply_replaces (s : jsstring) : jsstring :=
  replace_alt (alternatives (lit "undefined") (replaces cfg)) 0 s.

(** [s.replace(aliases_regex, (match) => config.aliases[match])]. *)
Definition apply_aliases (s : jsstring) : jsstring :=
  replace_bounded (alternatives (lit "undefined") (aliases cfg)) None 0 s.

(** [normalized]. *)
Definition normalize (raw : jsstring) : jsstring :=
  traditional_to_simplfiied E
    (expand_possessive
       (apply_aliases
          (apply_replaces
             (remove_tco 0 (toLowerCase E raw))))).

(** [terms]: every configured term as the texts of its segments. *)
Definition term_segments : list (list jsstring) :=
  map (fun term => map segment (segmenter_segment E (toLowerCase E term)))
      (terms cfg).

End Engine.

(** [Math.max(...lengths)]: [None] stands for [-Infinity]. *)
Definition max_term_length (ts : list (list jsstring)) : option nat :=
  match ts with
  | [] => None
  | _ => Some (fold_right Nat.max 0 (map (@length jsstring) ts))
  end.

(** The first [j] of the inner loop, [max_term_length - 1]; the loop
    runs while [j > 0], so it does not run from [-Infinity]. *)
Definition first_window (ts : list (list jsstring)) : nat :=
  match max_term_length ts with
  | Some m => m - 1
  | None => 0
  end.

(** [term.every((s, i) => s === potential[i])]. *)
Definition every_equal (term potential : list jsstring) : bool :=
  forallb
    (fun si => match nth_error potential (fst si) with
               | Some p => str_eqb (snd si) p
               | None => false
               end)
    (combine (seq 0 (length term)) term).

(** [terms.filter(...).find(...)] for one window. *)
Definition find_term (ts : list (list jsstring)) (potential : list jsstring)
  : option (list jsstring) :=
  find (fun term => every_equal term potential)
       (filter (fun term => Nat.eqb (length term) (length potential)) ts).

(** The inner [for] loop from [j] down to 1: the matching term and the
    [j] it was found at. *)
Fixpoint search_windows (ts : list (list jsstring)) (segments : list Segment)
    (i j : nat) : option (list jsstring * nat) :=
  match j with
  | O => None
  | S j' =>
      match find_term ts (map segment (slice segments i (i + j + 1))) with
      | Some m => Some (m, j)
      | None => search_windows ts segments i j'
      end
  end.

Definition tags : list jsstring := [lit "@"; lit "#"; lit "$"].

(** [segments[k]?.segment === text] and [segments[k]?.isWordLike]. *)
Definition segment_is (segments : list Segment) (k : nat) (text : jsstring) : bool :=
  match nth_error segments k with
  | Some s => str_eqb (segment s) text
  | None => false
  end.

Definition word_like_at (segments : list Segment) (k : nat) : bool :=
  match nth_error segments k with
  | Some s => isWordLike s
  | None => false
  end.

(** The [while] loop of the hyphen rule: the group and the cursor when
    it ends.  [None]: out of fuel. *)
Fixpoint hyphen_chain (fuel : nat) (segments : list Segment) (i : nat)
    (group : list jsstring) : option (list jsstring * nat) :=
  if segment_is segments (i + 1) (lit "-") && word_like_at segments (i + 2)
  then match fuel with
       | O => None
       | S fuel' =>
           match nth_error segments (i + 2) with
           | Some s2 => hyphen_chain fuel' segments (i + 2) (group ++ [segment s2])
           | None => None
           end
       end
  else Some (group, i).

(** The tag rule at cursor [i] ([@name], [#tag], [$symbol]): the token
    it pushes when its condition holds. *)
Definition tag_token (segments : list Segment) (i : nat) (si : Segment)
  : option jsstring :=
  match nth_error segments (i + 1) with
  | Some s1 =>
      if existsb (str_eqb (segment si)) tags
         && isWordLike s1
         && number_is_nan (segment s1)
      then Some (segment si ++ segment s1)
      else None
  | None => None
  end.

(** One run of the body of the outer loop at cursor [i], where
    [segments[i]] is [si]: what is pushed on [words] and the cursor when
    the body is left (before the [i++] of the loop). *)
Definition body (ts : list (list jsstring)) (segments : list Segment)
    (i : nat) (si : Segment) : option (list jsstring * nat) :=
  match search_windows ts segments i (first_window ts) with
  | Some (m, j) => Some ([join [] m], i + (j + 1))
  | None =>
      match tag_token segments i si with
      | Some token => Some ([token], i + 1)
      | None =>
          if isWordLike si && segment_is segments (i + 1) (lit "-")
          then match hyphen_chain (length segments) segments i [segment si] with
               | Some (group, i') => Some ([join (lit "-") group], i')
               | None => None
               end
          else if isWordLike si && number_is_nan (segment si)
          then Some ([segment si], i)
          else Some ([], i)
      end
  end.

(** The outer loop from cursor [i] with [words] collected so far. *)
Fixpoint scan (fuel : nat) (ts : list (list jsstring)) (segments : list Segment)
    (i : nat) (words : list jsstring) : option (list jsstring) :=
  match nth_error segments i with
  | None => Some words
  | Some si =>
      match fuel with
      | O => None
      | S fuel' =>
          match body ts segments i si with
          | Some (pushed, i') => scan fuel' ts segments (i' + 1) (words ++ pushed)
          | None => None
          end
      end
  end.

(** [words] after the outer loop; every run of the body moves the cursor
    forward, so [length segments] runs are enough ([scan_returns]). *)
Definition tokenize (ts : list (list jsstring)) (segments : list Segment)
  : list jsstring :=
  match scan (length segments) ts segments 0 [] with
  | Some words => words
  | None => []
  end.

(** [w.match(re)] and the other string methods on an element of
    [unique_words]: a member of [Object.prototype] has none of them, and
    the call throws a [TypeError] ([None]). *)
Definition as_string (w : value) : option jsstring :=
  match w with
  | VString s => Some s
  | VInherited _ => None
  end.

(** [a && b] where evaluating [a] or [b] may throw. *)
Definition and_then (a : option bool) (b : option bool) : option bool :=
  match a with
  | Some true => b
  | Some false => Some false
  | None => None
  end.

Section Pipeline.

Variable E : Env.

Let cfg := config E.

(** [is_chinese]. *)
Definition classify (words : list jsstring) : bool :=
  gt (of_length (length (filter (matches_class han_char) words)))
     (floor (mul (of_length (length words)) (hanzi_percentage cfg))).

(** [w in config.aliases ? config.aliases[w] : w]. *)
Definition alias_of (w : jsstring) : value :=
  if has_property (aliases cfg) w then get (aliases cfg) w else VString w.

(** [unique_words]. *)
Definition canonicalize (words : list jsstring) : list value :=
  unique (map alias_of words).

(** The callback of the final [filter] on an element of [unique_words],
    conjunct by conjunct; [None] when it throws. *)
Definition keep (w : value) : option bool :=
  and_then
    (if ignore_all_hanzi cfg
     then option_map (fun s => negb (matches_class han_char s)) (as_string w)
     else Some true)
  (and_then
    (if ignore_all_hiragana cfg
     then option_map (fun s => negb (matches_class hiragana_char s)) (as_string w)
     else Some true)
  (and_then
    (option_map
       (fun s => number_is_nan
                   (remove_class (fun c => existsb (N.eqb c) (lit "kmbt,-"))
                                 (strip_fiat E s)))
       (as_string w))
  (and_then
    (option_map
       (fun s => if negb (matches_class han_char s)
                    && negb (matches_class hiragana_char s)
                 then Nat.ltb 2 (length s) else true)
       (as_string w))
  (and_then
    (option_map all_ascii (as_string w))
  (and_then
    (option_map
       (fun s => gt (of_length
                       (length (remove_class (fun c => negb (in_range 97 122 c)) s)))
                    (floor (mul (of_length (length s)) six_tenths)))
       (as_string w))
    (option_map (fun s => negb (ignore_list_has E s)) (as_string w))))))).

(** [unique_words.filter(keep)]: the first throw ends it. *)
Fixpoint filter_words (ws : list value) : option (list value) :=
  match ws with
  | [] => Some []
  | w :: ws' =>
      match keep w with
      | None => None
      | Some b =>
          match filter_words ws' with
          | Some kept => Some (if b then w :: kept else kept)
          | None => None
          end
      end
  end.

(** [words] when the outer loop of [analyse] is done. *)
Definition tokens (raw : jsstring) : list jsstring :=
  tokenize (term_segments E) (segmenter_segment E (normalize E raw)).

(** [analyse(raw, options)]. *)
Definition analyse (raw : jsstring) (options : Options) : Completion :=
  let words := tokens raw in
  let is_chinese := classify words in
  let unique_words := canonicalize words in
  if no_filter options
  then Return {| is_chinese := is_chinese; words := unique_words |}
  else match filter_words unique_words with
       | Some kept => Return {| is_chinese := is_chinese; words := kept |}
       | None => ThrowTypeError
       end.

End Pipeline.

(** [escape_regex]: a backslash before each of [| \ { } ( ) [ ] ^ $ + * ? .],
    then every hyphen written [\x2d]. *)
Definition regex_special (c : N) : bool :=
  existsb (N.eqb c) (lit "|\{}()[]^$+*?.").

Definition escape_regex (s : jsstring) : jsstring :=
  flat_map (fun c => if N.eqb c 45 then lit "\x2d" else [c])
    (flat_map (fun c => if regex_special c then [92%N; c] else [c]) s).

(** A value of the table of [freq_table]: a count, or [NaN].  Counts are
    numbers of array elements, far below 2^53, where adding 1 is exact. *)
Inductive count :=
| Count (n : nat)
| NotANumber.

(** [c + 1]. *)
Definition increment (c : count) : count :=
  match c with
  | Count n => Count (S n)
  | NotANumber => NotANumber
  end.

(** The own properties of the table of [freq_table], in the order they
    were created. *)
Definition counts := list (jsstring * count).

Definition own_count (t : counts) (k : jsstring) : option count :=
  match find (fun kv => str_eqb (fst kv) k) t with
  | Some (_, c) => Some c
  | None => None
  end.

(** [t[k] = c] for a property that the assignment writes or creates. *)
Fixpoint set_count (t : counts) (k : jsstring) (c : count) : counts :=
  match t with
  | [] => [(k, c)]
  | (k', c') :: t' =>
      if str_eqb k' k then (k', c) :: t' else (k', c') :: set_count t' k c
  end.

(** One run of the loop body of [freq_table].  [table[entry]++] on a
    name that is only inherited reads a member of [Object.prototype],
    which is no number, and writes [NaN] as an own property; for
    [__proto__] the write goes to the setter, which ignores a value
    that is not an object. *)
Definition freq_step (table : counts) (entry : jsstring) : counts :=
  let table :=
    match own_count table entry with
    | Some _ => table
    | None =>
        if existsb (str_eqb entry) object_prototype_keys then table
        else set_count table entry (Count 0)
    end in
  match own_count table entry with
  | Some c => set_count table entry (increment c)
  | None =>
      if str_eqb entry (lit "__proto__") then table
      else set_count table entry NotANumber
  end.

(** [freq_table(array)]. *)
Definition freq_table (array : list jsstring) : counts :=
  fold_left freq_step array [].

(** [RFC1738(string)]; [None] when [encodeURIComponent] throws. *)
Definition RFC1738 (s : jsstring) : option jsstring :=
  option_map
    (fun encoded =>
       replace_char 42 (lit "%2A")
         (replace_char 41 (lit "%29")
            (replace_char 40 (lit "%28")
               (replace_char 39 (lit "%27")
                  (replace_char 33 (lit "%21") encoded)))))
    (encodeURIComponent s).

End Util.

(** ** The state that outlives a call

    The module keeps five [RegExp] objects with the [g] flag, and
    [analyse] uses them in every call; their [lastIndex] is the only
    thing [analyse] writes outside its own locals.  Here is [analyse]
    again with that state passed along. *)

Module Shared.
Import JS Util.

(** [lastIndex] of the five expressions. *)
Record RegExps := {
  HAN_REGEX : nat;
  HIRAGANA_REGEX : nat;
  FIAT_REGEX : nat;
  replaces_regex : nat;
  aliases_regex : nat
}.

Inductive regexp := Han | Hiragana | Fiat | Replaces | Aliases.

Definition set_lastIndex (re : regexp) (n : nat) (st : RegExps) : RegExps :=
  match re with
  | Han =>
      {| HAN_REGEX := n; HIRAGANA_REGEX := HIRAGANA_REGEX st;
         FIAT_REGEX := FIAT_REGEX st; replaces_regex := replaces_regex st;
         aliases_regex := aliases_regex st |}
  | Hiragana =>
      {| HAN_REGEX := HAN_REGEX st; HIRAGANA_REGEX := n;
         FIAT_REGEX := FIAT_REGEX st; replaces_regex := replaces_regex st;
         aliases_regex := aliases_regex st |}
  | Fiat =>
      {| HAN_REGEX := HAN_REGEX st; HIRAGANA_REGEX := HIRAGANA_REGEX st;
         FIAT_REGEX := n; replaces_regex := replaces_regex st;
         aliases_regex := aliases_regex st |}
  | Replaces =>
      {| HAN_REGEX := HAN_REGEX st; HIRAGANA_REGEX := HIRAGANA_REGEX st;
         FIAT_REGEX := FIAT_REGEX st; replaces_regex := n;
         aliases_regex := aliases_regex st |}
  | Aliases =>
      {| HAN_REGEX := HAN_REGEX st; HIRAGANA_REGEX := HIRAGANA_REGEX st;
         FIAT_REGEX := FIAT_REGEX st; replaces_regex := replaces_regex st;
         aliases_regex := n |}
  end.

(** A computation that reads and writes the expressions. *)
Definition M (A : Type) : Type := RegExps -> A * RegExps.

Definition ret {A} (a : A) : M A := fun st => (a, st).

Definition bind {A B} (m : M A) (f : A -> M B) : M B :=
  fun st => f (fst (m st)) (snd (m st)).

(** [s.match(re)] and [s.replace(re, ...)] with a global [re]: the
    method sets [lastIndex] to 0 before its first search, whatever it
    was, and the search that fails and ends it leaves 0 there; [result]
    is what the method computes from the string. *)
Definition global {A} (re : regexp) (result : A) : M A :=
  fun st => (result, set_lastIndex re 0 st).

(** A method call on an element of [unique_words]: it throws on a value
    that is not a string before the expression is touched. *)
Definition on_string {A} (w : value) (f : jsstring -> M A) : M (option A) :=
  match w with
  | VString s => bind (f s) (fun a => ret (Some a))
  | VInherited _ => ret None
  end.

(** [a && b]. *)
Definition and_then (a b : M (option bool)) : M (option bool) :=
  bind a (fun x =>
            match x with
            | Some true => b
            | Some false => ret (Some false)
            | None => ret None
            end).

Section Engine.

Variable E : Env.

Let cfg := config E.

Definition normalize (raw : jsstring) : M jsstring :=
  bind (global Replaces (apply_replaces E (remove_tco 0 (toLowerCase E raw))))
    (fun replaced =>
  bind (global Aliases (apply_aliases E replaced))
    (fun aliased =>
  ret (traditional_to_simplfiied E (expand_possessive aliased)))).

(** [words.filter((x) => !!x.match(HAN_REGEX))]. *)
Fixpoint ideograph_words (words : list jsstring) : M (list jsstring) :=
  match words with
  | [] => ret []
  | x :: words' =>
      bind (global Han (matches_class han_char x)) (fun b =>
      bind (ideograph_words words') (fun rest =>
      ret (if b then x :: rest else rest)))
  end.

Definition classify (words : list jsstring) : M bool :=
  bind (ideograph_words words) (fun han =>
  ret (gt (of_length (length han))
          (floor (mul (of_length (length words)) (hanzi_percentage cfg))))).

Definition keep (w : value) : M (option bool) :=
  and_then
    (if ignore_all_hanzi cfg
     then on_string w (fun s =>
            bind (global Han (matches_class han_char s)) (fun h => ret (negb h)))
     else ret (Some true))
  (and_then
    (if ignore_all_hiragana cfg
     then on_string w (fun s =>
            bind (global Hiragana (matches_class hiragana_char s))
                 (fun k => ret (negb k)))
     else ret (Some true))
  (and_then
    (on_string w (fun s =>
       bind (global Fiat (strip_fiat E s)) (fun t =>
       ret (number_is_nan
              (remove_class (fun c => existsb (N.eqb c) (lit "kmbt,-")) t)))))
  (and_then
    (on_string w (fun s =>
       bind (global Han (matches_class han_char s)) (fun h =>
       if h then ret true
       else bind (global Hiragana (matches_class hiragana_char s)) (fun k =>
            ret (if k then true else Nat.ltb 2 (length s))))))
  (and_then
    (on_string w (fun s => ret (all_ascii s)))
  (and_then
    (on_string w (fun s =>
       ret (gt (of_length
                  (length (remove_class (fun c => negb (in_range 97 122 c)) s)))
               (floor (mul (of_length (length s)) six_tenths)))))
    (on_string w (fun s => ret (negb (ignore_list_has E s))))))))).

Fixpoint filter_words (ws : list value) : M (option (list value)) :=
  match ws with
  | [] => ret (Some [])
  | w :: ws' =>
      bind (keep w) (fun b =>
      match b with
      | None => ret None
      | Some b =>
          bind (filter_words ws') (fun r =>
          ret (match r with
               | Some kept => Some (if b then w :: kept else kept)
               | None => None
               end))
      end)
  end.

(** [analyse(raw, options)] from a state of the expressions: how the
    call ends, and the state it leaves. *)
Definition analyse (raw : jsstring) (options : Options) : M Completion :=
  bind (normalize raw) (fun normalized =>
  let words := tokenize (term_segments E) (segmenter_segment E normalized) in
  bind (classify words) (fun is_chinese =>
  let unique_words := canonicalize E words in
  if no_filter options
  then ret (Return {| is_chinese := is_chinese; words := unique_words |})
  else bind (filter_words unique_words) (fun r =>
       ret (match r with
            | Some kept => Return {| is_chinese := is_chinese; words := kept |}
            | None => ThrowTypeError
            end)))).

End Engine.

(** [m] gives [a] from every state. *)
Definition computes {A} (m : M A) (a : A) : Prop :=
  forall st, fst (m st) = a.

End Shared.

(** ** A small environment to run the engine in

    An ASCII stand-in for the libraries: lower-casing of [A-Z], a
    segmenter that makes every maximal run of ASCII letters and digits a
    word-like segment and every other code unit a segment of its own, a
    converter that leaves the text alone, and a pluralizer that appends
    [s] to a word that is not empty.  On the texts used below they agree with [toLowerCase],
    [Intl.Segmenter], OpenCC and [pluralize]. *)

Module Sample.
Import JS Util.

Definition lower (s : jsstring) : jsstring :=
  map (fun c => if in_range 65 90 c then (c + 32)%N else c) s.

Definition alnum (c : N) : bool :=
  in_range 97 122 c || in_range 65 90 c || digit c.

Definition flush (pending : jsstring) : list Segment :=
  match pending with
  | [] => []
  | _ => [{| segment := pending; isWordLike := true |}]
  end.

Fixpoint split_words (pending s : jsstring) : list Segment :=
  match s with
  | [] => flush pending
  | c :: s' =>
      if alnum c then split_words (pending ++ [c]) s'
      else flush pending ++ {| segment := [c]; isWordLike := false |} :: split_words [] s'
  end.

Definition plural (word : jsstring) (count : nat) : jsstring :=
  if Nat.eqb count 1 then word
  else match word with
       | [] => []
       | _ => word ++ lit "s"
       end.

Definition env (c : Config) (fiat : list jsstring) (ignore_file : jsstring) : Env :=
  {| config := c;
     cmc_fiat_signs := fiat;
     ignore_list_file := ignore_file;
     toLowerCase := lower;
     segmenter_segment := split_words [];
     traditional_to_simplfiied := fun s => s;
     pluralize := plural |}.

(** Terms [["stop loss"]], aliases [{"btc": "bitcoin"}], one replacement,
    threshold 0.5, both flags off. *)
Definition trading : Config :=
  {| replaces := [(lit "&amp;", lit "&")];
     aliases := [(lit "btc", lit "bitcoin")];
     terms := [lit "stop loss"];
     hanzi_percentage := half;
     ignore_all_hanzi := false;
     ignore_all_hiragana := false |}.

(** Term [["c++"]], no alias for the words used with it. *)
Definition languages : Config :=
  {| replaces := [(lit "&amp;", lit "&")];
     aliases := [(lit "js", lit "javascript")];
     terms := [lit "c++"];
     hanzi_percentage := half;
     ignore_all_hanzi := false;
     ignore_all_hiragana := false |}.

(** Aliases [{"a": "b", "b": "c"}]. *)
Definition chained : Config :=
  {| replaces := [(lit "&amp;", lit "&")];
     aliases := [(lit "a", lit "b"); (lit "b", lit "c")];
     terms := [];
     hanzi_percentage := half;
     ignore_all_hanzi := false;
     ignore_all_hiragana := false |}.

(** No replacement at all. *)
Definition no_replaces : Config :=
  {| replaces := [];
     aliases := [(lit "btc", lit "bitcoin")];
     terms := [];
     hanzi_percentage := half;
     ignore_all_hanzi := false;
     ignore_all_hiragana := false |}.

Definition word (s : string) : Segment :=
  {| segment := lit s; isWordLike := true |}.

Definition other (s : string) : Segment :=
  {| segment := lit s; isWordLike := false |}.

End Sample.

(** ** Vocabulary of the properties *)

Module Spec.
Import JS Util.

(** Segments [h1 w1 h2 w2 ...] from the pairs [(h1, w1), (h2, w2), ...]. *)
Definition interleave (pairs : list (Segment * Segment)) : list Segment :=
  flat_map (fun hw => [fst hw; snd hw]) pairs.

(** A hyphen followed by a word-like segment. *)
Definition hyphen_word (hw : Segment * Segment) : Prop :=
  segment (fst hw) = lit "-" /\ isWordLike (snd hw) = true.

(** The number of tokens that contain at least one ideograph. *)
Fixpoint ideograph_tokens (words : list jsstring) : nat :=
  match words with
  | [] => 0
  | w :: words' =>
      (if existsb han_char (code_points w) then 1 else 0) + ideograph_tokens words'
  end.

(** The strings of a list of values, when all of them are strings. *)
Fixpoint all_strings (vs : list value) : option (list jsstring) :=
  match vs with
  | [] => Some []
  | VString s :: vs' =>
      match all_strings vs' with
      | Some ss => Some (s :: ss)
      | None => None
      end
  | VInherited _ :: _ => None
  end.

(** The canonicalization step applied to its own output. *)
Definition canonicalize_twice (E : Env) (words : list jsstring)
  : option (list value) :=
  option_map (canonicalize E) (all_strings (canonicalize E words)).

(** No alias value is remapped: looking a value of the table up in the
    table gives the value back. *)
Definition unchained (E : Env) : Prop :=
  forall k v, In (k, v) (aliases (config E)) -> alias_of E v = VString v.

(** The callback of the final [filter] on a string, as one boolean. *)
Definition keep_string (E : Env) (w : jsstring) : bool :=
  (if ignore_all_hanzi (config E) then negb (matches_class han_char w) else true) &&
  (if ignore_all_hiragana (config E)
   then negb (matches_class hiragana_char w) else true) &&
  number_is_nan
    (remove_class (fun c => existsb (N.eqb c) (lit "kmbt,-")) (strip_fiat E w)) &&
  (if negb (matches_class han_char w) && negb (matches_class hiragana_char w)
   then Nat.ltb 2 (length w) else true) &&
  all_ascii w &&
  gt (of_length (length (remove_class (fun c => negb (in_range 97 122 c)) w)))
     (floor (mul (of_length (length w)) six_tenths)) &&
  negb (ignore_list_has E w).

(** The callback of the final [filter] with the length floor applied to
    every token, ideographs and kana or not. *)
Definition keep_plain_floor (E : Env) (w : value) : option bool :=
  and_then
    (if ignore_all_hanzi (config E)
     then option_map (fun s => negb (matches_class han_char s)) (as_string w)
     else Some true)
  (and_then
    (if ignore_all_hiragana (config E)
     then option_map (fun s => negb (matches_class hiragana_char s)) (as_string w)
     else Some true)
  (and_then
    (option_map
       (fun s => number_is_nan
                   (remove_class (fun c => existsb (N.eqb c) (lit "kmbt,-"))
                                 (strip_fiat E s)))
       (as_string w))
  (and_then
    (option_map (fun s => Nat.ltb 2 (length s)) (as_string w))
  (and_then
    (option_map all_ascii (as_string w))
  (and_then
    (option_map
       (fun s => gt (of_length
                       (length (remove_class (fun c => negb (in_range 97 122 c)) s)))
                    (floor (mul (of_length (length s)) six_tenths)))
       (as_string w))
    (option_map (fun s => negb (ignore_list_has E s)) (as_string w))))))).

(** The texts of the window of [j + 1] segments at cursor [i]. *)
Definition window (segments : list Segment) (i j : nat) : list jsstring :=
  map segment (slice segments i (i + j + 1)).

(** [key] occurs in [s]. *)
Definition occurs (key s : jsstring) : Prop :=
  exists pre post, s = pre ++ key ++ post.

(** [occurs], decided. *)
Fixpoint occursb (key s : jsstring) : bool :=
  is_prefix key s ||
  match s with
  | [] => false
  | _ :: s' => occursb key s'
  end.

(** [sep] before, between and after the code units of [s]. *)
Definition surround (sep s : jsstring) : jsstring :=
  sep ++ flat_map (fun c => c :: sep) s.

(** The callback of the final [filter] returns [true]. *)
Definition kept (E : Env) (w : value) : bool :=
  match keep E w with
  | Some true => true
  | _ => false
  end.

(** How many elements of [array] are [k]. *)
Definition occurrences (k : jsstring) (array : list jsstring) : nat :=
  length (filter (str_eqb k) array).

(** Letters, digits, [- _ . ~] and the percent sign. *)
Definition url_safe (c : N) : bool :=
  digit c || in_range 65 90 c || in_range 97 122 c ||
  existsb (N.eqb c) (lit "-_.~%").

(** Letters, digits and [- _ . ~]. *)
Definition rfc3986_unreserved (c : N) : bool :=
  digit c || in_range 65 90 c || in_range 97 122 c ||
  existsb (N.eqb c) (lit "-_.~").

(** What [encodeURIComponent] writes: the characters it leaves alone
    and the percent sign. *)
Definition encoded_char (c : N) : bool := uri_unescaped c || N.eqb c 37.

(** The five replacements of [RFC1738] after the encoding. *)
Definition rfc1738_replacements (encoded : jsstring) : jsstring :=
  replace_char 42 (lit "%2A")
    (replace_char 41 (lit "%29")
       (replace_char 40 (lit "%28")
          (replace_char 39 (lit "%27")
             (replace_char 33 (lit "%21") encoded)))).

(** The characters of an amount: digits and [k m b t , -]. *)
Definition amount_char (c : N) : bool :=
  digit c || existsb (N.eqb c) (lit "kmbt,-").

(** A 16-bit code unit. *)
Definition code_unit (c : N) : bool := N.ltb c 0x10000.

(** A count as a natural number, [NaN] as 0. *)
Definition count_value (c : count) : nat :=
  match c with Count n => n | NotANumber => 0 end.

(** The sum of the counts of a table, [NaN] apart. *)
Definition total_count (t : counts) : nat :=
  fold_right (fun kv n => match snd kv with Count c => c + n | NotANumber => n end)
             0 t.

(** The escape of one character by [escape_regex]. *)
Definition escape_char (c : N) : jsstring :=
  if regex_special c then [92%N; c]
  else if N.eqb c 45 then lit "\x2d"
  else [c].

(** Zero, positive or not a number. *)
Definition non_negative (p : number) : bool :=
  match p with
  | S754_finite true _ _ => false
  | S754_infinity true => false
  | _ => true
  end.

End Spec.

(** ** Properties *)

Import JS Util.

(** *** Strings and values *)

Lemma str_eqb_eq (a b : jsstring) : str_eqb a b = true <-> a = b.
Proof.
  revert b; induction a as [|x a IH]; intros [|y b]; simpl; split;
    try reflexivity; try discriminate.
  - intros H. apply andb_prop in H as [Hx Hab].
    apply N.eqb_eq in Hx. apply IH in Hab. congruence.
  - intros H. injection H as -> ->.
    rewrite N.eqb_refl. simpl. now apply IH.
Qed.

Lemma str_eqb_refl (a : jsstring) : str_eqb a a = true.
Proof. now apply str_eqb_eq. Qed.

Lemma str_eqb_neq (a b : jsstring) : str_eqb a b = false <-> a <> b.
Proof.
  split.
  - intros H Heq. apply str_eqb_eq in Heq. congruence.
  - intros H. destruct (str_eqb a b) eqn:Hab; [|reflexivity].
    apply str_eqb_eq in Hab. contradiction.
Qed.

Lemma value_eqb_eq (a b : value) : value_eqb a b = true <-> a = b.
Proof.
  destruct a, b; simpl; split; try discriminate;
    try (intros H; apply str_eqb_eq in H; congruence);
    try (intros H; injection H as ->; apply str_eqb_refl).
Qed.

(** *** The scan returns *)

Lemma nth_error_in_range {A} (l : list A) (n : nat) (x : A) :
  nth_error l n = Some x -> n < length l.
Proof. intros H. apply nth_error_Some. congruence. Qed.

Lemma nth_error_middle {A} (pre post : list A) (k : nat) :
  nth_error (pre ++ post) (length pre + k) = nth_error post k.
Proof.
  rewrite nth_error_app2 by lia. f_equal. lia.
Qed.

Lemma hyphen_chain_returns (segments : list Segment) :
  forall fuel i group,
    length segments <= i + 2 + 2 * fuel ->
    exists g i', hyphen_chain fuel segments i group = Some (g, i') /\ i <= i'.
Proof.
  induction fuel as [|fuel IH]; intros i group Hlen; simpl.
  - destruct (segment_is segments (i + 1) (lit "-")); simpl; [|eauto].
    unfold word_like_at.
    destruct (nth_error segments (i + 2)) as [s2|] eqn:H2; [|eauto].
    apply nth_error_in_range in H2. lia.
  - destruct (segment_is segments (i + 1) (lit "-") && word_like_at segments (i + 2))
      eqn:Hc; [|eauto].
    apply andb_prop in Hc as [_ Hw]. unfold word_like_at in Hw.
    destruct (nth_error segments (i + 2)) as [s2|]; [|discriminate].
    destruct (IH (i + 2) (group ++ [segment s2])) as (g & i' & Hg & Hle); [lia|].
    exists g, i'. split; [exact Hg | lia].
Qed.

Lemma body_returns (ts : list (list jsstring)) (segments : list Segment) i si :
  exists pushed i', body ts segments i si = Some (pushed, i') /\ i <= i'.
Proof.
  unfold body.
  destruct (search_windows ts segments i (first_window ts)) as [[m j]|].
  { eexists _, _. split; [reflexivity | lia]. }
  destruct (tag_token segments i si).
  { eexists _, _. split; [reflexivity | lia]. }
  destruct (isWordLike si && segment_is segments (i + 1) (lit "-")).
  { destruct (hyphen_chain_returns segments (length segments) i [segment si])
      as (g & i' & Hg & Hle); [lia|].
    rewrite Hg. eexists _, _. split; [reflexivity | exact Hle]. }
  destruct (isWordLike si && number_is_nan (segment si));
    eexists _, _; (split; [reflexivity | lia]).
Qed.

Lemma scan_returns_from (ts : list (list jsstring)) (segments : list Segment) :
  forall fuel i words,
    length segments <= i + fuel ->
    exists ws, scan fuel ts segments i words = Some ws.
Proof.
  induction fuel as [|fuel IH]; intros i words Hlen.
  - simpl. destruct (nth_error segments i) eqn:Hi; [|eauto].
    apply nth_error_in_range in Hi. lia.
  - simpl. destruct (nth_error segments i) as [si|]; [|eauto].
    destruct (body_returns ts segments i si) as (pushed & i' & Hb & Hle).
    rewrite Hb. apply IH. lia.
Qed.

(** The fuel of [tokenize] is never used up. *)
Lemma scan_returns (ts : list (list jsstring)) (segments : list Segment) :
  scan (length segments) ts segments 0 [] = Some (tokenize ts segments).
Proof.
  unfold tokenize.
  destruct (scan_returns_from ts segments (length segments) 0 []) as [ws Hws];
    [lia|].
  now rewrite Hws.
Qed.

(** After a term found at window [j] the next run of the body is at
    [i + j + 2]: [i += j + 1], then the [i++] of [continue outer]. *)
Lemma scan_after_term ts segments fuel i si words m j :
  nth_error segments i = Some si ->
  search_windows ts segments i (first_window ts) = Some (m, j) ->
  scan (S fuel) ts segments i words
  = scan fuel ts segments (i + j + 2) (words ++ [join [] m]).
Proof.
  intros Hi Hs. simpl. rewrite Hi. unfold body. rewrite Hs.
  replace (i + (j + 1) + 1) with (i + j + 2) by lia. reflexivity.
Qed.

(** *** Term matching *)

(** C1 (the code departs from the claim).  Terms [["c++"]], text
    ["c++code"]: the term matches the window of 3 segments at cursor 0
    with [j = 2], and the scan resumes at index 4, not 3; the word-like
    segment ["code"] at index 3 is never examined and the tokens are
    [["c++"]], where the claim has [["c++"; "code"]].  In the same way,
    with the term ["stop loss"], the [#] of ["stop loss#eth"] is passed
    over and ["eth"] is pushed as a plain word, not as ["#eth"]. *)
Theorem term_match_skips_following_segment :
  let E := Sample.env Sample.languages [lit "$"] [] in
  let ts := [[lit "c"; lit "+"; lit "+"]] in
  let segments :=
    [Sample.word "c"; Sample.other "+"; Sample.other "+"; Sample.word "code"] in
  term_segments E = ts
  /\ segmenter_segment E (normalize E (lit "c++code")) = segments
  /\ search_windows ts segments 0 (first_window ts)
     = Some ([lit "c"; lit "+"; lit "+"], 2)
  /\ (forall fuel words,
        scan (S fuel) ts segments 0 words
        = scan fuel ts segments 4 (words ++ [lit "c++"]))
  /\ tokens E (lit "c++code") = [lit "c++"]
  /\ tokens (Sample.env Sample.trading [lit "$"] []) (lit "stop loss#eth")
     = [lit "stop loss"; lit "eth"].
Proof.
  repeat split; try reflexivity.
Qed.

(** *** Hyphen compounds *)

Lemma hyphen_chain_unfold fuel segments i group :
  hyphen_chain fuel segments i group
  = if segment_is segments (i + 1) (lit "-") && word_like_at segments (i + 2)
    then match fuel with
         | O => None
         | S fuel' =>
             match nth_error segments (i + 2) with
             | Some s2 => hyphen_chain fuel' segments (i + 2) (group ++ [segment s2])
             | None => None
             end
         end
    else Some (group, i).
Proof. destruct fuel; reflexivity. Qed.

Lemma hyphen_chain_consumes (pairs : list (Segment * Segment)) (rest : list Segment) :
  Forall Spec.hyphen_word pairs ->
  segment_is rest 0 (lit "-") && word_like_at rest 1 = false ->
  forall (pre : list Segment) (cur : Segment) (group : list jsstring) (fuel : nat),
    length pairs <= fuel ->
    hyphen_chain fuel (pre ++ cur :: Spec.interleave pairs ++ rest) (length pre) group
    = Some (group ++ map (fun hw => segment (snd hw)) pairs,
            length pre + 2 * length pairs).
Proof.
  intros Hpairs Hrest.
  induction Hpairs as [|[h w] pairs [Hh Hw] _ IH]; intros pre cur group fuel Hfuel.
  - simpl Spec.interleave. simpl app at 2.
    assert (Hc : segment_is (pre ++ cur :: rest) (length pre + 1) (lit "-")
                 && word_like_at (pre ++ cur :: rest) (length pre + 2) = false).
    { unfold segment_is, word_like_at in *.
      rewrite !nth_error_middle. simpl. exact Hrest. }
    rewrite hyphen_chain_unfold, Hc, app_nil_r. simpl length.
    replace (length pre + 2 * 0) with (length pre) by lia. reflexivity.
  - simpl in Hh, Hw. destruct fuel as [|fuel]; [simpl in Hfuel; lia|].
    simpl Spec.interleave.
    assert (H1 : nth_error (pre ++ cur :: (h :: w :: Spec.interleave pairs) ++ rest)
                           (length pre + 1) = Some h).
    { rewrite nth_error_middle. reflexivity. }
    assert (H2 : nth_error (pre ++ cur :: (h :: w :: Spec.interleave pairs) ++ rest)
                           (length pre + 2) = Some w).
    { rewrite nth_error_middle. reflexivity. }
    rewrite hyphen_chain_unfold. unfold segment_is, word_like_at.
    rewrite H1, H2, Hh, Hw. simpl andb. cbv iota.
    replace (pre ++ cur :: (h :: w :: Spec.interleave pairs) ++ rest)
      with ((pre ++ [cur; h]) ++ w :: Spec.interleave pairs ++ rest)
      by (rewrite <- app_assoc; reflexivity).
    replace (length pre + 2) with (length (pre ++ [cur; h]))
      by (rewrite length_app; simpl; lia).
    rewrite IH by (simpl in Hfuel; lia).
    rewrite <- app_assoc. simpl map. simpl length. rewrite length_app. simpl length.
    replace (length pre + 2 + 2 * length pairs)
      with (length pre + 2 * S (length pairs)) by lia.
    reflexivity.
Qed.

Lemma interleave_length (pairs : list (Segment * Segment)) :
  length (Spec.interleave pairs) = 2 * length pairs.
Proof.
  induction pairs as [|hw pairs IH]; [reflexivity|].
  change (Spec.interleave (hw :: pairs))
    with (fst hw :: snd hw :: Spec.interleave pairs).
  simpl length. rewrite IH. lia.
Qed.

(** C8.  The segments [state - of - the - art] give the one token
    ["state-of-the-art"]; and wherever the term search and the tag rule
    do not apply, a word-like segment followed by pairs of ["-"] and a
    word-like segment, as many as there are, is pushed as one token
    joined with ["-"], and the scan goes on at the first segment after
    the chain. *)
Theorem hyphen_compound_one_token :
  tokenize []
    [Sample.word "state"; Sample.other "-"; Sample.word "of"; Sample.other "-";
     Sample.word "the"; Sample.other "-"; Sample.word "art"]
  = [lit "state-of-the-art"]
  /\
  forall (ts : list (list jsstring)) (pre : list Segment) (w0 : Segment)
         (pairs : list (Segment * Segment)) (rest : list Segment),
    let segments := pre ++ w0 :: Spec.interleave pairs ++ rest in
    let i := length pre in
    let token := join (lit "-") (segment w0 :: map (fun hw => segment (snd hw)) pairs) in
    isWordLike w0 = true ->
    pairs <> [] ->
    Forall Spec.hyphen_word pairs ->
    segment_is rest 0 (lit "-") && word_like_at rest 1 = false ->
    search_windows ts segments i (first_window ts) = None ->
    tag_token segments i w0 = None ->
    body ts segments i w0 = Some ([token], i + 2 * length pairs)
    /\ forall fuel words,
         scan (S fuel) ts segments i words
         = scan fuel ts segments (length (pre ++ w0 :: Spec.interleave pairs))
                (words ++ [token]).
Proof.
  split; [reflexivity|].
  intros ts pre w0 pairs rest segments i token Hw0 Hne Hpairs Hrest Hterm Htag.
  assert (Hbody : body ts segments i w0 = Some ([token], i + 2 * length pairs)).
  { unfold body. rewrite Hterm, Htag, Hw0. simpl andb.
    assert (Hhy : segment_is segments (i + 1) (lit "-") = true).
    { destruct pairs as [|[h w] pairs]; [contradiction|].
      inversion Hpairs as [|? ? [Hh _] _]; subst.
      unfold segment_is, segments, i. rewrite nth_error_middle. simpl.
      simpl in Hh. rewrite Hh. reflexivity. }
    rewrite Hhy. unfold segments at 2, i.
    rewrite (@hyphen_chain_consumes pairs rest Hpairs Hrest).
    - reflexivity.
    - unfold segments. rewrite length_app. simpl. rewrite length_app.
      rewrite interleave_length. lia. }
  split; [exact Hbody|].
  intros fuel words. simpl scan.
  assert (Hi : nth_error segments i = Some w0).
  { unfold segments, i.
    replace (length pre) with (length pre + 0) by lia.
    rewrite nth_error_middle. reflexivity. }
  rewrite Hi, Hbody. rewrite length_app. simpl length. rewrite interleave_length.
  replace (i + 2 * length pairs + 1) with (length pre + S (2 * length pairs))
    by (unfold i; lia).
  reflexivity.
Qed.

(** The chain [state - of - the - art] as an instance of the general
    statement. *)
Lemma hyphen_compound_one_token_witness :
  body [] [Sample.word "state"; Sample.other "-"; Sample.word "of"; Sample.other "-";
           Sample.word "the"; Sample.other "-"; Sample.word "art"]
       0 (Sample.word "state")
  = Some ([lit "state-of-the-art"], 6).
Proof.
  apply (proj2 hyphen_compound_one_token [] [] (Sample.word "state")
           [(Sample.other "-", Sample.word "of");
            (Sample.other "-", Sample.word "the");
            (Sample.other "-", Sample.word "art")] []).
  - reflexivity.
  - discriminate.
  - repeat constructor.
  - reflexivity.
  - reflexivity.
  - reflexivity.
Defined.

(** *** The language classifier *)

Lemma ideograph_tokens_filter (words : list jsstring) :
  length (filter (matches_class han_char) words) = Spec.ideograph_tokens words.
Proof.
  induction words as [|w words IH]; simpl; [reflexivity|].
  unfold matches_class at 1.
  destruct (existsb han_char (code_points w)); simpl; now rewrite IH.
Qed.

(** C5.  [is_chinese] holds exactly when the number of tokens with an
    ideograph is greater than the floor of the token count times
    [hanzi_percentage]; at 0.5 and 4 tokens, 2 such tokens give [false]
    and 3 give [true]; no token gives [false]. *)
Theorem classify_threshold (E : Env) (words : list jsstring) :
  (classify E words = true <->
   gt (of_length (Spec.ideograph_tokens words))
      (floor (mul (of_length (length words)) (hanzi_percentage (config E)))) = true)
  /\ (hanzi_percentage (config E) = half ->
      length words = 4 ->
      (Spec.ideograph_tokens words = 2 -> classify E words = false)
      /\ (Spec.ideograph_tokens words = 3 -> classify E words = true))
  /\ classify E [] = false.
Proof.
  unfold classify. rewrite ideograph_tokens_filter.
  split; [reflexivity|]. split.
  - intros Hp Hlen. rewrite Hp, Hlen.
    split; intros Hn; rewrite Hn; reflexivity.
  - simpl. destruct (hanzi_percentage (config E)) as [[|]|[|]| |[|] m e];
      reflexivity.
Qed.

(** Four tokens at threshold 0.5: two, then three of them with an
    ideograph. *)
Lemma classify_threshold_witness :
  let E := Sample.env Sample.trading [lit "$"] [] in
  classify E [[0x4E2D%N]; [0x6587%N]; lit "btc"; lit "moon"] = false
  /\ classify E [[0x4E2D%N]; [0x6587%N]; [0x5E01%N]; lit "moon"] = true.
Proof.
  intros E. split.
  - apply (proj1 (proj2 (classify_threshold E
             [[0x4E2D%N]; [0x6587%N]; lit "btc"; lit "moon"])));
      reflexivity.
  - apply (proj1 (proj2 (classify_threshold E
             [[0x4E2D%N]; [0x6587%N]; [0x5E01%N]; lit "moon"])));
      reflexivity.
Defined.

(** *** The ignore list *)

Lemma ignore_list_has_In (E : Env) (w : jsstring) :
  ignore_list_has E w = true <-> In w (ignore_list E).
Proof.
  unfold ignore_list_has. rewrite existsb_exists. split.
  - intros (x & Hx & Heq). apply str_eqb_eq in Heq. now subst.
  - intros H. exists w. split; [exact H | apply str_eqb_refl].
Qed.

(** C6, as the code has it.  For every entry of the ignore-list file
    (a line, trimmed) the set has the entry, [pluralize(entry, 0)], the
    entry followed by ["ing"], the entry without its last character
    followed by ["ing"], and the entry followed by ["d"] and by ["ed"];
    for the entry ["run"] these are ["run"], its plural, ["runing"],
    ["ruing"], ["rund"] and ["runed"]. *)
Theorem ignore_list_variants (E : Env) (word : jsstring) :
  In word (map trim (split_lines (ignore_list_file E))) ->
  (ignore_list_has E word = true
   /\ ignore_list_has E (pluralize E word 0) = true
   /\ ignore_list_has E (word ++ lit "ing") = true
   /\ ignore_list_has E (drop_last word ++ lit "ing") = true
   /\ ignore_list_has E (word ++ lit "d") = true
   /\ ignore_list_has E (word ++ lit "ed") = true)
  /\ (word = lit "run" ->
      ignore_list_has E (lit "run") = true
      /\ ignore_list_has E (pluralize E (lit "run") 0) = true
      /\ ignore_list_has E (lit "runing") = true
      /\ ignore_list_has E (lit "ruing") = true
      /\ ignore_list_has E (lit "rund") = true
      /\ ignore_list_has E (lit "runed") = true).
Proof.
  intros Hin.
  assert (Hall : forall v,
             In v [word; pluralize E word 0; word ++ lit "ing";
                   drop_last word ++ lit "ing"; word ++ lit "d"; word ++ lit "ed"] ->
             ignore_list_has E v = true).
  { intros v Hv. apply ignore_list_has_In. unfold ignore_list.
    apply in_flat_map. exists word. split; assumption. }
  assert (Hsix : ignore_list_has E word = true
   /\ ignore_list_has E (pluralize E word 0) = true
   /\ ignore_list_has E (word ++ lit "ing") = true
   /\ ignore_list_has E (drop_last word ++ lit "ing") = true
   /\ ignore_list_has E (word ++ lit "d") = true
   /\ ignore_list_has E (word ++ lit "ed") = true).
  { repeat split; apply Hall; simpl; auto 10. }
  split; [exact Hsix|].
  intros ->. exact Hsix.
Qed.

(** A file with the one line ["run"]. *)
Lemma ignore_list_variants_witness :
  let E := Sample.env Sample.trading [lit "$"] (lit "run") in
  ignore_list_has E (lit "run") = true
  /\ ignore_list_has E (lit "runs") = true
  /\ ignore_list_has E (lit "runing") = true
  /\ ignore_list_has E (lit "ruing") = true
  /\ ignore_list_has E (lit "rund") = true
  /\ ignore_list_has E (lit "runed") = true.
Proof.
  intros E.
  apply (proj2 (ignore_list_variants E (lit "run") (or_introl eq_refl)) eq_refl).
Defined.

(** C6 as stated fails: no rule doubles the final consonant, and with
    the one entry ["run"] the set does not have ["running"]. *)
Lemma ignore_list_lacks_running :
  let E := Sample.env Sample.trading [lit "$"] (lit "run") in
  In (lit "run") (map trim (split_lines (ignore_list_file E)))
  /\ ignore_list E
     = [lit "run"; lit "runs"; lit "runing"; lit "ruing"; lit "rund"; lit "runed"]
  /\ ignore_list_has E (lit "running") = false.
Proof.
  repeat split. left. reflexivity.
Qed.

(** *** Canonicalization *)

Lemma existsb_value_In (x : value) (acc : list value) :
  existsb (value_eqb x) acc = true <-> In x acc.
Proof.
  rewrite existsb_exists. split.
  - intros (y & Hy & Heq). apply value_eqb_eq in Heq. now subst.
  - intros H. exists x. split; [exact H | now apply value_eqb_eq].
Qed.

Lemma unique_fold_In (xs : list value) :
  forall acc x, In x (fold_left add_unique xs acc) <-> In x acc \/ In x xs.
Proof.
  induction xs as [|y xs IH]; intros acc x; simpl.
  - tauto.
  - rewrite IH. unfold add_unique.
    destruct (existsb (value_eqb y) acc) eqn:Hy.
    + apply existsb_value_In in Hy. split; [tauto|].
      intros [H|[H|H]]; subst; tauto.
    + rewrite in_app_iff. simpl. tauto.
Qed.

Lemma unique_fold_fixed (xs : list value) :
  forall acc, NoDup (acc ++ xs) -> fold_left add_unique xs acc = acc ++ xs.
Proof.
  induction xs as [|y xs IH]; intros acc Hnd; simpl.
  - now rewrite app_nil_r.
  - unfold add_unique.
    destruct (existsb (value_eqb y) acc) eqn:Hy.
    + apply existsb_value_In in Hy. apply NoDup_remove_2 in Hnd.
      exfalso. apply Hnd. apply in_or_app. now left.
    + rewrite IH; rewrite <- app_assoc; [reflexivity | exact Hnd].
Qed.

Lemma unique_fold_NoDup (xs : list value) :
  forall acc, NoDup acc -> NoDup (fold_left add_unique xs acc).
Proof.
  induction xs as [|y xs IH]; intros acc Hnd; simpl; [exact Hnd|].
  apply IH. unfold add_unique.
  destruct (existsb (value_eqb y) acc) eqn:Hy; [exact Hnd|].
  apply NoDup_app; [exact Hnd | repeat constructor; intros [] |].
  intros x Hx [Heq|[]]; subst.
  apply existsb_value_In in Hx. congruence.
Qed.

Lemma unique_In (xs : list value) (x : value) : In x (unique xs) <-> In x xs.
Proof.
  unfold unique. rewrite unique_fold_In. simpl. tauto.
Qed.

(** [unique] leaves a list without duplicates alone, so it is idempotent. *)
Lemma unique_idempotent (xs : list value) : unique (unique xs) = unique xs.
Proof.
  unfold unique at 1.
  apply (unique_fold_fixed (unique xs) []). simpl.
  unfold unique. apply unique_fold_NoDup. constructor.
Qed.

Lemma all_strings_map (vs : list value) (ss : list jsstring) :
  Spec.all_strings vs = Some ss -> vs = map VString ss.
Proof.
  revert ss; induction vs as [|[s|k] vs IH]; intros ss H; simpl in H.
  - now injection H as <-.
  - destruct (Spec.all_strings vs) as [ss'|]; [|discriminate].
    injection H as <-. simpl. f_equal. now apply IH.
  - discriminate.
Qed.

Lemma get_own_In (t : table) (k v : jsstring) :
  get_own t k = Some v -> exists k', In (k', v) t.
Proof.
  unfold get_own.
  destruct (find (fun kv => str_eqb (fst kv) k) t) as [[k' v']|] eqn:Hf;
    [|discriminate].
  intros H. injection H as ->. apply find_some in Hf as [Hin _]. eauto.
Qed.

(** Under [unchained], whatever a lookup returns as a string is left
    alone by a second lookup. *)
Lemma alias_of_stable (E : Env) (w s : jsstring) :
  Spec.unchained E -> alias_of E w = VString s -> alias_of E s = VString s.
Proof.
  intros Hun H. unfold alias_of in H.
  destruct (has_property (aliases (config E)) w) eqn:Hp.
  - unfold get in H.
    destruct (get_own (aliases (config E)) w) as [v|] eqn:Hg; [|discriminate].
    injection H as ->. apply get_own_In in Hg as [k Hk]. exact (Hun k s Hk).
  - injection H as ->. unfold alias_of. now rewrite Hp.
Qed.

(** C7, as the code has it.  One application looks every token up once
    and does not follow the result through the table again; so the step
    is idempotent on an alias table that remaps none of its own values:
    on such a table, when the canonical forms of [words] are all
    strings, the step applied to them gives them back. *)
Theorem canonicalize_idempotent_unchained (E : Env) (words ss : list jsstring) :
  Spec.unchained E ->
  Spec.all_strings (canonicalize E words) = Some ss ->
  canonicalize E ss = canonicalize E words
  /\ Spec.canonicalize_twice E words = Some (canonicalize E words).
Proof.
  intros Hun Hss.
  assert (Hcanon : canonicalize E ss = canonicalize E words).
  { pose proof (all_strings_map _ Hss) as Hvs.
    assert (Hmap : map (alias_of E) ss = map VString ss).
    { apply map_ext_in. intros s Hs.
      assert (Hin : In (VString s) (canonicalize E words)).
      { rewrite Hvs. now apply in_map. }
      unfold canonicalize in Hin. apply (proj1 (unique_In _ _)) in Hin.
      apply (proj1 (in_map_iff _ _ _)) in Hin. destruct Hin as (w & Hw & _).
      exact (@alias_of_stable E w s Hun Hw). }
    unfold canonicalize at 1. rewrite Hmap, <- Hvs.
    unfold canonicalize. apply unique_idempotent. }
  split; [exact Hcanon|].
  unfold Spec.canonicalize_twice. rewrite Hss. simpl. now rewrite Hcanon.
Qed.

(** The table [{"btc": "bitcoin"}] remaps none of its values. *)
Lemma canonicalize_idempotent_unchained_witness :
  let E := Sample.env Sample.trading [lit "$"] [] in
  canonicalize E [lit "bitcoin"; lit "moon"]
  = canonicalize E [lit "btc"; lit "moon"; lit "bitcoin"]
  /\ Spec.canonicalize_twice E [lit "btc"; lit "moon"; lit "bitcoin"]
     = Some (canonicalize E [lit "btc"; lit "moon"; lit "bitcoin"]).
Proof.
  intros E.
  apply (@canonicalize_idempotent_unchained E
           [lit "btc"; lit "moon"; lit "bitcoin"] [lit "bitcoin"; lit "moon"]).
  - intros k v [Heq|[]]. injection Heq as <- <-. reflexivity.
  - reflexivity.
Defined.

(** C7 as stated fails on a table with a chain: with the aliases
    [{"a": "b", "b": "c"}] one application takes ["a"] to ["b"] and a
    second one takes it on to ["c"]. *)
Lemma canonicalize_not_idempotent :
  let E := Sample.env Sample.chained [lit "$"] [] in
  canonicalize E [lit "a"] = [VString (lit "b")]
  /\ Spec.canonicalize_twice E [lit "a"] = Some [VString (lit "c")]
  /\ Spec.canonicalize_twice E [lit "a"] <> Some (canonicalize E [lit "a"]).
Proof.
  repeat split. discriminate.
Qed.

(** *** The filter *)

Lemma and_then_some (a b : bool) : and_then (Some a) (Some b) = Some (a && b).
Proof. destruct a; reflexivity. Qed.

Lemma keep_string_spec (E : Env) (s : jsstring) :
  keep E (VString s) = Some (Spec.keep_string E s).
Proof.
  unfold keep, Spec.keep_string. cbn [as_string option_map].
  destruct (ignore_all_hanzi (config E)), (ignore_all_hiragana (config E));
    rewrite !and_then_some, !andb_assoc; reflexivity.
Qed.

Lemma keep_inherited (E : Env) (k : jsstring) : keep E (VInherited k) = None.
Proof.
  unfold keep, as_string, option_map.
  destruct (ignore_all_hanzi (config E)), (ignore_all_hiragana (config E));
    reflexivity.
Qed.

Lemma in_range_above (lo hi c : N) :
  (c <= 127)%N -> (127 < lo)%N -> in_range lo hi c = false.
Proof.
  intros Hc Hlo. unfold in_range.
  replace (N.leb lo c) with false; [reflexivity|].
  symmetry. apply N.leb_gt. lia.
Qed.

Lemma eqb_above (c k : N) : (c <= 127)%N -> (127 < k)%N -> N.eqb c k = false.
Proof. intros Hc Hk. apply N.eqb_neq. lia. Qed.

Lemma ascii_unit (c : N) : in_range 0 127 c = true -> (c <= 127)%N.
Proof.
  unfold in_range. intros H. apply andb_prop in H as [_ H].
  now apply N.leb_le.
Qed.

Lemma han_char_ascii (c : N) : (c <= 127)%N -> han_char c = false.
Proof.
  intros Hc. unfold han_char, unified_ideograph.
  rewrite !in_range_above by (assumption || lia).
  rewrite !eqb_above by (assumption || lia).
  reflexivity.
Qed.

Lemma hiragana_char_ascii (c : N) : (c <= 127)%N -> hiragana_char c = false.
Proof.
  intros Hc. unfold hiragana_char.
  rewrite !in_range_above by (assumption || lia).
  rewrite !eqb_above by (assumption || lia).
  reflexivity.
Qed.

Lemma code_points_ascii (s : jsstring) :
  forallb (in_range 0 127) s = true -> code_points s = s.
Proof.
  induction s as [|hi rest IH]; [reflexivity|].
  intros H. simpl in H. apply andb_prop in H as [Hhi Hrest].
  apply ascii_unit in Hhi. specialize (IH Hrest).
  destruct rest as [|lo rest']; [reflexivity|].
  change (code_points (hi :: lo :: rest'))
    with (if in_range 0xD800 0xDBFF hi && in_range 0xDC00 0xDFFF lo
          then (0x10000 + (hi - 0xD800) * 0x400 + (lo - 0xDC00))%N :: code_points rest'
          else hi :: code_points (lo :: rest')).
  rewrite in_range_above by (assumption || lia). cbn [andb]. now rewrite IH.
Qed.

(** An all-ASCII string matches neither [HAN_REGEX] nor
    [HIRAGANA_REGEX]. *)
Lemma all_ascii_no_cjk (s : jsstring) :
  all_ascii s = true ->
  matches_class han_char s = false /\ matches_class hiragana_char s = false.
Proof.
  unfold all_ascii, matches_class. intros H.
  apply andb_prop in H as [_ H]. rewrite (code_points_ascii _ H).
  split; apply not_true_is_false; intros Hex;
    apply existsb_exists in Hex as (c & Hc & Hcl);
    rewrite forallb_forall in H; apply H in Hc; apply ascii_unit in Hc.
  - rewrite han_char_ascii in Hcl by assumption. discriminate.
  - rewrite hiragana_char_ascii in Hcl by assumption. discriminate.
Qed.

Lemma keep_string_true (E : Env) (s : jsstring) :
  Spec.keep_string E s = true ->
  all_ascii s = true /\ 2 < length s.
Proof.
  unfold Spec.keep_string. intros H.
  repeat (apply andb_prop in H as [H ?]).
  match goal with Ha : all_ascii s = true |- _ =>
    destruct (all_ascii_no_cjk _ Ha) as [Hh Hk]; split; [exact Ha|] end.
  match goal with Hl : (if _ then _ else true) = true |- _ =>
    rewrite Hh, Hk in Hl; simpl in Hl; now apply Nat.ltb_lt in Hl end.
Qed.

Lemma filter_words_kept (E : Env) (ws : list value) :
  forall kept, filter_words E ws = Some kept ->
  forall w, In w kept -> In w ws /\ keep E w = Some true.
Proof.
  induction ws as [|x ws IH]; intros kept H w Hw; simpl in H.
  - injection H as <-. destruct Hw.
  - destruct (keep E x) as [b|] eqn:Hk; [|discriminate].
    destruct (filter_words E ws) as [kept'|]; [|discriminate].
    injection H as <-.
    destruct b.
    + destruct Hw as [<-|Hw]; [split; [now left | exact Hk]|].
      destruct (IH kept' eq_refl w Hw). split; [now right | assumption].
    + destruct (IH kept' eq_refl w Hw). split; [now right | assumption].
Qed.

Lemma keep_plain_floor_string (E : Env) (s : jsstring) :
  Spec.keep_plain_floor E (VString s)
  = Some ((if ignore_all_hanzi (config E)
           then negb (matches_class han_char s) else true) &&
          (if ignore_all_hiragana (config E)
           then negb (matches_class hiragana_char s) else true) &&
          number_is_nan
            (remove_class (fun c => existsb (N.eqb c) (lit "kmbt,-")) (strip_fiat E s)) &&
          Nat.ltb 2 (length s) &&
          all_ascii s &&
          gt (of_length (length (remove_class (fun c => negb (in_range 97 122 c)) s)))
             (floor (mul (of_length (length s)) six_tenths)) &&
          negb (ignore_list_has E s)).
Proof.
  unfold Spec.keep_plain_floor. cbn [as_string option_map].
  destruct (ignore_all_hanzi (config E)), (ignore_all_hiragana (config E));
    rewrite !and_then_some, !andb_assoc; reflexivity.
Qed.

(** The exemption of short ideograph and kana tokens from the length
    floor has no effect: such a token fails [ALL_ASCII] anyway. *)
Lemma keep_plain_floor_same (E : Env) (w : value) :
  keep E w = Spec.keep_plain_floor E w.
Proof.
  destruct w as [s|k].
  - rewrite keep_string_spec, keep_plain_floor_string. unfold Spec.keep_string.
    destruct (all_ascii s) eqn:Ha.
    + destruct (all_ascii_no_cjk _ Ha) as [-> ->]. reflexivity.
    + rewrite !andb_false_r. reflexivity.
  - rewrite keep_inherited. unfold Spec.keep_plain_floor, as_string, option_map.
    destruct (ignore_all_hanzi (config E)), (ignore_all_hiragana (config E));
      reflexivity.
Qed.

(** C10.  With filtering on, every element of the returned [words] is
    an all-ASCII string longer than 2; so none has an ideograph or a
    kana character, whatever the two flags are, and applying the length
    floor to every token alike gives the same filter. *)
Theorem filtered_words_ascii (E : Env) (raw : jsstring) (options : Options)
    (r : Result) :
  no_filter options = false ->
  analyse E raw options = Return r ->
  (forall w, In w (words r) ->
     exists s, w = VString s
               /\ all_ascii s = true
               /\ 2 < length s
               /\ matches_class han_char s = false
               /\ matches_class hiragana_char s = false)
  /\ (forall w, keep E w = Spec.keep_plain_floor E w).
Proof.
  intros Hopt Hr. split; [|apply keep_plain_floor_same].
  unfold analyse in Hr. rewrite Hopt in Hr.
  destruct (filter_words E (canonicalize E (tokens E raw))) as [kept|] eqn:Hf;
    [|discriminate].
  injection Hr as <-. simpl. intros w Hw.
  destruct (filter_words_kept E _ Hf w Hw) as [_ Hk].
  destruct w as [s|k]; [|rewrite keep_inherited in Hk; discriminate].
  rewrite keep_string_spec in Hk. injection Hk as Hk.
  destruct (keep_string_true E s Hk) as [Ha Hl].
  destruct (all_ascii_no_cjk _ Ha) as [Hh Hn].
  exists s. repeat split; assumption.
Qed.

(** The words returned for ["BTC stop loss now"]. *)
Lemma filtered_words_ascii_witness :
  Forall
    (fun w => exists s, w = VString s
                        /\ all_ascii s = true
                        /\ 2 < length s
                        /\ matches_class han_char s = false
                        /\ matches_class hiragana_char s = false)
    [VString (lit "bitcoin"); VString (lit "stop loss"); VString (lit "now")].
Proof.
  apply Forall_forall.
  exact (proj1 (@filtered_words_ascii
                  (Sample.env Sample.trading [lit "$"] [])
                  (lit "BTC stop loss now") None
                  {| is_chinese := false;
                     words := [VString (lit "bitcoin"); VString (lit "stop loss");
                               VString (lit "now")] |}
                  eq_refl eq_refl)).
Defined.

(** *** Numbers that are not negative *)

Lemma non_negative_round_aux mx ex lx :
  Spec.non_negative (binary_round_aux 53 1024 false mx ex lx) = true.
Proof.
  unfold binary_round_aux.
  destruct (shr_fexp 53 1024 mx ex lx) as [mrs e'].
  destruct (shr_fexp 53 1024 _ e' loc_Exact) as [mrs' e''].
  destruct (shr_m mrs'); try reflexivity.
  destruct (Z.leb e'' (1024 - 53)); reflexivity.
Qed.

Lemma non_negative_normalize (z : Z) :
  (0 <= z)%Z -> Spec.non_negative (binary_normalize 53 1024 z 0 false) = true.
Proof.
  intros Hz. destruct z as [|m|m]; [reflexivity| |lia].
  unfold binary_normalize, binary_round.
  destruct (shl_align m 0 _) as [mz ez]. apply non_negative_round_aux.
Qed.

Lemma non_negative_of_length (n : nat) : Spec.non_negative (of_length n) = true.
Proof. apply non_negative_normalize. lia. Qed.

Lemma non_negative_mul (x y : number) :
  Spec.non_negative x = true -> Spec.non_negative y = true ->
  Spec.non_negative (mul x y) = true.
Proof.
  destruct x as [[|]|[|]| |[|] mx ex], y as [[|]|[|]| |[|] my ey];
    simpl; intros Hx Hy; try discriminate; try reflexivity.
  apply non_negative_round_aux.
Qed.

Lemma non_negative_floor (x : number) :
  Spec.non_negative x = true -> Spec.non_negative (floor x) = true.
Proof.
  destruct x as [s|s| |s m e]; simpl; intros Hx; try exact Hx.
  destruct s; [discriminate|].
  apply non_negative_normalize.
  destruct (Z.leb 0 e) eqn:He.
  - apply Z.shiftl_nonneg. lia.
  - apply Z.leb_gt in He. apply Z.div_pos; [lia|].
    apply Z.pow_pos_nonneg; lia.
Qed.

Lemma zero_not_gt_non_negative (y : number) :
  Spec.non_negative y = true -> gt (S754_zero false) y = false.
Proof.
  destruct y as [[|]|[|]| |[|] m e]; simpl; intros Hy;
    try discriminate; reflexivity.
Qed.

(** With a threshold that is not negative, a text without any
    ideograph token is not Chinese. *)
Lemma classify_no_ideograph (E : Env) (words : list jsstring) :
  Spec.non_negative (hanzi_percentage (config E)) = true ->
  Spec.ideograph_tokens words = 0 ->
  classify E words = false.
Proof.
  intros Hp H0. unfold classify. rewrite ideograph_tokens_filter, H0.
  apply zero_not_gt_non_negative, non_negative_floor, non_negative_mul;
    [apply non_negative_of_length | exact Hp].
Qed.

(** *** Inherited property names *)

Lemma filter_words_throws (E : Env) (ws : list value) (k : jsstring) :
  In (VInherited k) ws -> filter_words E ws = None.
Proof.
  induction ws as [|x ws IH]; intros Hin; [destruct Hin|].
  simpl. destruct Hin as [->|Hin].
  - now rewrite keep_inherited.
  - destruct (keep E x); [|reflexivity]. now rewrite (IH Hin).
Qed.

(** A token that names a member of [Object.prototype] and is not a key
    of the alias table of its own makes the filtered call throw. *)
Lemma analyse_throws (E : Env) (raw w : jsstring) (options : Options) :
  In w (tokens E raw) ->
  alias_of E w = VInherited w ->
  no_filter options = false ->
  analyse E raw options = ThrowTypeError.
Proof.
  intros Hw Ha Hopt. unfold analyse. rewrite Hopt.
  rewrite (@filter_words_throws E _ w); [reflexivity|].
  unfold canonicalize. apply unique_In. rewrite <- Ha. now apply in_map.
Qed.

(** C3 (the code departs from the claim).  With the aliases
    [{"btc": "bitcoin"}] and the text ["constructor"]: the token
    ["constructor"] is [in config.aliases] through the prototype chain,
    the lookup gives [Object.prototype.constructor], a function, and the
    filter calls a string method on it: the call throws a [TypeError];
    with [no_filter] the function is returned among the words.  The
    empty text does give [{is_chinese: false, words: []}]. *)
Theorem analyse_throws_on_inherited_name :
  let E := Sample.env Sample.trading [lit "$"] [] in
  tokens E (lit "constructor") = [lit "constructor"]
  /\ get_own (aliases (config E)) (lit "constructor") = None
  /\ has_property (aliases (config E)) (lit "constructor") = true
  /\ canonicalize E [lit "constructor"] = [VInherited (lit "constructor")]
  /\ analyse E (lit "constructor") None = ThrowTypeError
  /\ analyse E (lit "constructor") (Some (Some true))
     = Return {| is_chinese := false; words := [VInherited (lit "constructor")] |}
  /\ analyse E [] None = Return {| is_chinese := false; words := [] |}.
Proof.
  repeat split.
Qed.

(** *** The two scenarios *)

(** The filter on an all-ASCII string: what is left of the callback. *)
Lemma keep_ascii (E : Env) (s : jsstring) :
  all_ascii s = true ->
  keep E (VString s)
  = Some (number_is_nan
            (remove_class (fun c => existsb (N.eqb c) (lit "kmbt,-")) (strip_fiat E s))
          && Nat.ltb 2 (length s)
          && gt (of_length (length (remove_class (fun c => negb (in_range 97 122 c)) s)))
                (floor (mul (of_length (length s)) six_tenths))
          && negb (ignore_list_has E s)).
Proof.
  intros Ha. rewrite keep_string_spec. unfold Spec.keep_string.
  destruct (all_ascii_no_cjk _ Ha) as [-> ->]. rewrite Ha.
  cbn [negb andb].
  destruct (ignore_all_hanzi (config E)), (ignore_all_hiragana (config E));
    cbn [andb]; now rewrite andb_true_r.
Qed.

(** C4, as the code has it.  Terms [["stop loss"]], aliases
    [{"btc": "bitcoin"}], text ["BTC stop loss now"], in an environment
    whose replacements leave the text alone, whose segmenter splits at
    the spaces, whose threshold is not negative and whose fiat signs and
    ignore list do not touch the three words: the normalizer has already
    rewritten [btc], so the tokens after term matching are
    [["bitcoin"; "stop loss"; "now"]], canonicalization leaves them as
    they are, all three pass the filter and [analyse] returns
    [{is_chinese: false, words: ["bitcoin", "stop loss", "now"]}]. *)
Theorem scenario_stop_loss (E : Env) :
  let raw := lit "BTC stop loss now" in
  let three := [lit "bitcoin"; lit "stop loss"; lit "now"] in
  terms (config E) = [lit "stop loss"] ->
  aliases (config E) = [(lit "btc", lit "bitcoin")] ->
  toLowerCase E raw = lit "btc stop loss now" ->
  toLowerCase E (lit "stop loss") = lit "stop loss" ->
  apply_replaces E (lit "btc stop loss now") = lit "btc stop loss now" ->
  traditional_to_simplfiied E (lit "bitcoin stop loss now")
  = lit "bitcoin stop loss now" ->
  segmenter_segment E (lit "bitcoin stop loss now")
  = [Sample.word "bitcoin"; Sample.other " "; Sample.word "stop"; Sample.other " ";
     Sample.word "loss"; Sample.other " "; Sample.word "now"] ->
  segmenter_segment E (lit "stop loss")
  = [Sample.word "stop"; Sample.other " "; Sample.word "loss"] ->
  Spec.non_negative (hanzi_percentage (config E)) = true ->
  (forall w, In w three -> strip_fiat E w = w /\ ignore_list_has E w = false) ->
  normalize E raw = lit "bitcoin stop loss now"
  /\ tokens E raw = three
  /\ canonicalize E three = map VString three
  /\ forall options,
       no_filter options = false ->
       analyse E raw options
       = Return {| is_chinese := false; words := map VString three |}.
Proof.
  intros raw three Hterms Haliases Hlow Hlow' Hrep Hconv Hseg Hseg' Hp Hclean.
  assert (Hnorm : normalize E raw = lit "bitcoin stop loss now").
  { unfold normalize. rewrite Hlow.
    change (remove_tco 0 (lit "btc stop loss now")) with (lit "btc stop loss now").
    rewrite Hrep. unfold apply_aliases. rewrite Haliases.
    exact Hconv. }
  assert (Htok : tokens E raw = three).
  { unfold tokens. rewrite Hnorm, Hseg. unfold term_segments.
    rewrite Hterms. cbn [map]. rewrite Hlow', Hseg'. reflexivity. }
  assert (Hcanon : canonicalize E three = map VString three).
  { unfold canonicalize, alias_of. rewrite Haliases. reflexivity. }
  repeat split; try assumption.
  intros options Hopt. unfold analyse. rewrite Hopt, Htok, Hcanon.
  rewrite (classify_no_ideograph E three Hp eq_refl).
  cbn [map filter_words three].
  rewrite !keep_ascii by reflexivity.
  destruct (Hclean (lit "bitcoin")) as [-> ->]; [simpl; auto|].
  destruct (Hclean (lit "stop loss")) as [-> ->]; [simpl; auto|].
  destruct (Hclean (lit "now")) as [-> ->]; [simpl; auto|].
  reflexivity.
Qed.

(** The scenario in the sample environment. *)
Lemma scenario_stop_loss_witness :
  analyse (Sample.env Sample.trading [lit "$"] []) (lit "BTC stop loss now") None
  = Return {| is_chinese := false;
              words := [VString (lit "bitcoin"); VString (lit "stop loss");
                        VString (lit "now")] |}.
Proof.
  apply (@scenario_stop_loss (Sample.env Sample.trading [lit "$"] []));
    try reflexivity.
  intros w [<-|[<-|[<-|[]]]]; split; reflexivity.
Defined.

(** C4 as stated fails at the tokens after term matching: they do not
    have ["btc"], which [aliases_regex] has replaced in the text before
    it is segmented. *)
Lemma scenario_stop_loss_tokens_have_no_btc :
  let E := Sample.env Sample.trading [lit "$"] [] in
  normalize E (lit "BTC stop loss now") = lit "bitcoin stop loss now"
  /\ tokens E (lit "BTC stop loss now") = [lit "bitcoin"; lit "stop loss"; lit "now"]
  /\ tokens E (lit "BTC stop loss now") <> [lit "btc"; lit "stop loss"; lit "now"].
Proof.
  repeat split. discriminate.
Qed.

(** Where no term matches anywhere, the scan is the scan without terms. *)
Lemma scan_no_terms (ts : list (list jsstring)) (segments : list Segment) :
  (forall i, i < length segments ->
             search_windows ts segments i (first_window ts) = None) ->
  forall fuel i words,
    scan fuel ts segments i words = scan fuel [] segments i words.
Proof.
  intros Hnone. induction fuel as [|fuel IH]; intros i words; [reflexivity|].
  simpl. destruct (nth_error segments i) as [si|] eqn:Hi; [|reflexivity].
  apply nth_error_in_range in Hi.
  unfold body. rewrite (Hnone i Hi).
  cbn [first_window max_term_length search_windows].
  destruct (tag_token segments i si); [apply IH|].
  destruct (isWordLike si && segment_is segments (i + 1) (lit "-")).
  { destruct (hyphen_chain (length segments) segments i [segment si]) as [[g i']|];
      [apply IH | reflexivity]. }
  destruct (isWordLike si && number_is_nan (segment si)); apply IH.
Qed.


(** *** Determinism *)

Lemma computes_ret {A} (a : A) : Shared.computes (Shared.ret a) a.
Proof. intros st. reflexivity. Qed.

Lemma computes_global {A} (re : Shared.regexp) (a : A) :
  Shared.computes (Shared.global re a) a.
Proof. intros st. reflexivity. Qed.

Lemma computes_bind {A B} (m : Shared.M A) (f : A -> Shared.M B) (a : A) (b : B) :
  Shared.computes m a -> Shared.computes (f a) b ->
  Shared.computes (Shared.bind m f) b.
Proof.
  intros Hm Hf st. unfold Shared.bind. rewrite Hm. apply Hf.
Qed.

Lemma computes_on_string {A} (w : value) (f : jsstring -> Shared.M A)
    (g : jsstring -> A) :
  (forall s, Shared.computes (f s) (g s)) ->
  Shared.computes (Shared.on_string w f) (option_map g (as_string w)).
Proof.
  intros Hf. destruct w as [s|k]; simpl.
  - eapply computes_bind; [apply Hf | apply computes_ret].
  - apply computes_ret.
Qed.

Lemma computes_and_then (a b : Shared.M (option bool)) (x y : option bool) :
  Shared.computes a x -> Shared.computes b y ->
  Shared.computes (Shared.and_then a b) (and_then x y).
Proof.
  intros Ha Hb. unfold Shared.and_then.
  eapply computes_bind; [exact Ha|].
  destruct x as [[|]|]; simpl; [exact Hb | apply computes_ret | apply computes_ret].
Qed.

Lemma computes_normalize (E : Env) (raw : jsstring) :
  Shared.computes (Shared.normalize E raw) (normalize E raw).
Proof.
  unfold Shared.normalize, normalize.
  eapply computes_bind; [apply computes_global|].
  eapply computes_bind; [apply computes_global|].
  apply computes_ret.
Qed.

Lemma computes_ideograph_words (words : list jsstring) :
  Shared.computes (Shared.ideograph_words words)
                  (filter (matches_class han_char) words).
Proof.
  induction words as [|x words IH]; simpl; [apply computes_ret|].
  eapply computes_bind; [apply computes_global|].
  eapply computes_bind; [exact IH|].
  apply computes_ret.
Qed.

Lemma computes_classify (E : Env) (words : list jsstring) :
  Shared.computes (Shared.classify E words) (classify E words).
Proof.
  unfold Shared.classify, classify.
  eapply computes_bind; [apply computes_ideograph_words | apply computes_ret].
Qed.

Lemma computes_keep (E : Env) (w : value) :
  Shared.computes (Shared.keep E w) (keep E w).
Proof.
  unfold Shared.keep, keep.
  repeat apply computes_and_then.
  - destruct (ignore_all_hanzi (config E)); [|apply computes_ret].
    apply computes_on_string with (g := fun s => negb (matches_class han_char s)).
    intros s. eapply computes_bind; [apply computes_global | apply computes_ret].
  - destruct (ignore_all_hiragana (config E)); [|apply computes_ret].
    apply computes_on_string
      with (g := fun s => negb (matches_class hiragana_char s)).
    intros s. eapply computes_bind; [apply computes_global | apply computes_ret].
  - apply computes_on_string
      with (g := fun s => number_is_nan
                   (remove_class (fun c => existsb (N.eqb c) (lit "kmbt,-"))
                                 (strip_fiat E s))).
    intros s. eapply computes_bind; [apply computes_global | apply computes_ret].
  - apply computes_on_string
      with (g := fun s => if negb (matches_class han_char s)
                             && negb (matches_class hiragana_char s)
                          then Nat.ltb 2 (length s) else true).
    intros s. eapply computes_bind; [apply computes_global|].
    destruct (matches_class han_char s); [apply computes_ret|].
    eapply computes_bind; [apply computes_global|].
    destruct (matches_class hiragana_char s); apply computes_ret.
  - apply computes_on_string with (g := all_ascii).
    intros s. apply computes_ret.
  - apply computes_on_string
      with (g := fun s =>
                   gt (of_length
                         (length (remove_class (fun c => negb (in_range 97 122 c)) s)))
                      (floor (mul (of_length (length s)) six_tenths))).
    intros s. apply computes_ret.
  - apply computes_on_string with (g := fun s => negb (ignore_list_has E s)).
    intros s. apply computes_ret.
Qed.

Lemma computes_filter_words (E : Env) (ws : list value) :
  Shared.computes (Shared.filter_words E ws) (filter_words E ws).
Proof.
  induction ws as [|w ws IH]; simpl; [apply computes_ret|].
  eapply computes_bind; [apply computes_keep|].
  destruct (keep E w) as [b|]; [|apply computes_ret].
  eapply computes_bind; [exact IH|].
  destruct (filter_words E ws); apply computes_ret.
Qed.

(** The call with the expressions passed along ends as [analyse] does,
    from every state of the expressions. *)
Lemma computes_analyse (E : Env) (raw : jsstring) (options : Options) :
  Shared.computes (Shared.analyse E raw options) (analyse E raw options).
Proof.
  unfold Shared.analyse, analyse, tokens.
  eapply computes_bind; [apply computes_normalize|].
  eapply computes_bind; [apply computes_classify|].
  destruct (no_filter options); [apply computes_ret|].
  eapply computes_bind; [apply computes_filter_words|].
  destruct (filter_words E _); apply computes_ret.
Qed.

(** C9.  Two calls of [analyse] with the same text, options and
    configuration end the same way, with the same [is_chinese] and the
    same [words], whatever state the module-level expressions are in
    when each call starts; in particular a call and the call that
    follows it. *)
Theorem analyse_deterministic (E : Env) (raw : jsstring) (options : Options)
    (st1 st2 : Shared.RegExps) :
  fst (Shared.analyse E raw options st1) = fst (Shared.analyse E raw options st2)
  /\ fst (Shared.analyse E raw options st1) = analyse E raw options
  /\ fst (Shared.analyse E raw options (snd (Shared.analyse E raw options st1)))
     = fst (Shared.analyse E raw options st1).
Proof.
  pose proof (computes_analyse E raw options) as H.
  repeat split; now rewrite !H.
Qed.

(** ** More of the engine *)

(** *** The term search *)

Lemma every_equal_from (term : list jsstring) :
  forall (pre rest : list jsstring),
    length term = length rest ->
    forallb
      (fun si => match nth_error (pre ++ rest) (fst si) with
                 | Some p => str_eqb (snd si) p
                 | None => false
                 end)
      (combine (seq (length pre) (length term)) term) = true
    <-> term = rest.
Proof.
  induction term as [|t term IH]; intros pre [|r rest] Hlen;
    simpl in Hlen; try discriminate.
  - simpl. tauto.
  - cbn [length seq combine forallb fst snd].
    replace (nth_error (pre ++ r :: rest) (length pre)) with (Some r)
      by (replace (length pre) with (length pre + 0) by lia;
          rewrite nth_error_middle; reflexivity).
    specialize (IH (pre ++ [r]) rest (eq_add_S _ _ Hlen)).
    rewrite <- app_assoc, length_app in IH. simpl in IH.
    replace (length pre + 1) with (S (length pre)) in IH by lia.
    rewrite andb_true_iff, IH, str_eqb_eq. split.
    + intros [-> ->]. reflexivity.
    + intros H. injection H as -> ->. split; reflexivity.
Qed.

Lemma every_equal_eq (term potential : list jsstring) :
  length term = length potential ->
  every_equal term potential = true <-> term = potential.
Proof.
  intros Hlen. exact (every_equal_from term [] potential Hlen).
Qed.

Lemma find_term_some (ts : list (list jsstring)) (potential m : list jsstring) :
  find_term ts potential = Some m <-> m = potential /\ In potential ts.
Proof.
  unfold find_term. split.
  - intros H. apply find_some in H as [Hin Heq].
    apply filter_In in Hin as [Hin Hlen]. apply Nat.eqb_eq in Hlen.
    apply (every_equal_eq _ _ Hlen) in Heq. subst. split; [reflexivity | exact Hin].
  - intros [-> Hin].
    destruct (find (fun term => every_equal term potential)
                   (filter (fun term => Nat.eqb (length term) (length potential)) ts))
      as [m|] eqn:Hf.
    + apply find_some in Hf as [Hm Heq].
      apply filter_In in Hm as [_ Hlen]. apply Nat.eqb_eq in Hlen.
      apply (every_equal_eq _ _ Hlen) in Heq. now subst.
    + exfalso.
      assert (Hp : In potential
                     (filter (fun term => Nat.eqb (length term) (length potential)) ts)).
      { apply filter_In. split; [exact Hin | apply Nat.eqb_refl]. }
      pose proof (find_none _ _ Hf _ Hp) as Hne. cbv beta in Hne.
      rewrite (proj2 (every_equal_eq potential potential eq_refl) eq_refl) in Hne.
      discriminate.
Qed.

(** X1.  A window matches a term exactly when its texts are the term:
    the term found is the window itself, and it is found whenever the
    window is among the terms. *)
Theorem find_term_is_membership (ts : list (list jsstring))
    (potential m : list jsstring) :
  find_term ts potential = Some m <-> m = potential /\ In potential ts.
Proof. apply find_term_some. Qed.

Lemma search_windows_largest (ts : list (list jsstring))
    (segments : list Segment) (i j0 : nat) :
  match search_windows ts segments i j0 with
  | Some (m, j) =>
      1 <= j <= j0
      /\ m = Spec.window segments i j
      /\ In m ts
      /\ forall j', j < j' <= j0 -> ~ In (Spec.window segments i j') ts
  | None =>
      forall j', 1 <= j' <= j0 -> ~ In (Spec.window segments i j') ts
  end.
Proof.
  induction j0 as [|j0 IH]; simpl.
  - intros j' Hj'. lia.
  - fold (Spec.window segments i (S j0)).
    destruct (find_term ts (Spec.window segments i (S j0))) as [m|] eqn:Hf.
    + apply find_term_some in Hf as [-> Hin].
      split; [lia|]. split; [reflexivity|]. split; [exact Hin|].
      intros j' Hj'. lia.
    + assert (Hnot : ~ In (Spec.window segments i (S j0)) ts).
      { intros Hin.
        assert (Hs : find_term ts (Spec.window segments i (S j0))
                     = Some (Spec.window segments i (S j0)))
          by (apply find_term_some; split; [reflexivity | exact Hin]).
        congruence. }
      destruct (search_windows ts segments i j0) as [[m j]|].
      * destruct IH as (Hj & Hm & Hin & Hgreedy).
        split; [lia|]. split; [exact Hm|]. split; [exact Hin|].
        intros j' Hj'. destruct (Nat.eq_dec j' (S j0)) as [->|Hne];
          [exact Hnot | apply Hgreedy; lia].
      * intros j' Hj'. destruct (Nat.eq_dec j' (S j0)) as [->|Hne];
          [exact Hnot | apply IH; lia].
Qed.

(** X2.  The inner loop is greedy: it finds the largest [j] between 1
    and its first [j] whose window is a term, it returns that window,
    and it finds nothing exactly when no such window is a term. *)
Theorem search_windows_greedy (ts : list (list jsstring))
    (segments : list Segment) (i j0 : nat) :
  match search_windows ts segments i j0 with
  | Some (m, j) =>
      1 <= j <= j0
      /\ m = Spec.window segments i j
      /\ In m ts
      /\ forall j', j < j' <= j0 -> ~ In (Spec.window segments i j') ts
  | None =>
      forall j', 1 <= j' <= j0 -> ~ In (Spec.window segments i j') ts
  end.
Proof. apply search_windows_largest. Qed.

(** *** The scan *)




Lemma scan_no_word (ts : list (list jsstring)) (segments : list Segment) :
  (forall i, i < length segments ->
             search_windows ts segments i (first_window ts) = None) ->
  Forall (fun s => isWordLike s = false) segments ->
  forall fuel i words ws,
    scan fuel ts segments i words = Some ws -> ws = words.
Proof.
  intros Hnone Hall. rewrite Forall_forall in Hall.
  induction fuel as [|fuel IH]; intros i words ws; simpl.
  - destruct (nth_error segments i); [discriminate|]. congruence.
  - destruct (nth_error segments i) as [si|] eqn:Hi; [|congruence].
    pose proof (Hall si (nth_error_In _ _ Hi)) as Hsi.
    apply nth_error_in_range in Hi.
    unfold body. rewrite (Hnone i Hi).
    assert (Htag : tag_token segments i si = None).
    { unfold tag_token.
      destruct (nth_error segments (i + 1)) as [s1|] eqn:H1; [|reflexivity].
      rewrite (Hall s1 (nth_error_In _ _ H1)).
      now rewrite andb_false_r. }
    rewrite Htag, Hsi. simpl. intros H. apply IH in H.
    now rewrite app_nil_r in H.
Qed.

(** X4.  A text none of whose segments is word-like, with no term
    matching anywhere, has no token: punctuation and white space alone
    give an empty list. *)
Theorem tokenize_no_word_like (ts : list (list jsstring)) (segments : list Segment) :
  (forall i, i < length segments ->
             search_windows ts segments i (first_window ts) = None) ->
  Forall (fun s => isWordLike s = false) segments ->
  tokenize ts segments = [].
Proof.
  intros Hnone Hall.
  exact (@scan_no_word ts segments Hnone Hall _ _ _ _ (scan_returns ts segments)).
Qed.

(** Three segments that are not words, and terms that do not match. *)
Lemma tokenize_no_word_like_witness :
  tokenize [[lit "c"; lit "+"; lit "+"]]
           [Sample.other "!"; Sample.other " "; Sample.other "?"] = [].
Proof.
  apply tokenize_no_word_like.
  - intros i Hi. do 3 (destruct i as [|i]; [reflexivity|]). simpl in Hi. lia.
  - repeat constructor.
Defined.

(** *** Canonical forms *)

Lemma unique_NoDup (xs : list value) : NoDup (unique xs).
Proof. unfold unique. apply unique_fold_NoDup. constructor. Qed.

Lemma canonicalize_In (E : Env) (tokens : list jsstring) (v : value) :
  In v (canonicalize E tokens) <-> exists w, In w tokens /\ alias_of E w = v.
Proof.
  unfold canonicalize. rewrite unique_In, in_map_iff.
  split; intros (w & H1 & H2); exists w; tauto.
Qed.

(** X5.  [unique_words] has no duplicates and holds exactly the
    canonical forms of the tokens: the own value of a token that is a
    key of the alias table, and any other token itself unless it names
    a member of [Object.prototype]. *)
Theorem canonicalize_forms (E : Env) (tokens : list jsstring) :
  NoDup (canonicalize E tokens)
  /\ (forall v, In v (canonicalize E tokens)
                <-> exists w, In w tokens /\ alias_of E w = v)
  /\ (forall w, In w tokens ->
        match get_own (aliases (config E)) w with
        | Some v => In (VString v) (canonicalize E tokens)
        | None =>
            if existsb (str_eqb w) object_prototype_keys
            then In (VInherited w) (canonicalize E tokens)
            else In (VString w) (canonicalize E tokens)
        end).
Proof.
  pose proof (canonicalize_In E tokens) as Hmem.
  split; [apply unique_NoDup|]. split; [exact Hmem|].
  intros w Hw.
  assert (Hin : In (alias_of E w) (canonicalize E tokens))
    by (apply Hmem; exists w; tauto).
  unfold alias_of, has_property, get in Hin.
  destruct (get_own (aliases (config E)) w) as [v|]; [exact Hin|].
  destruct (existsb (str_eqb w) object_prototype_keys); exact Hin.
Qed.

(** *** The filter, and when it throws *)

Lemma filter_words_filter (E : Env) (ws kept : list value) :
  filter_words E ws = Some kept -> kept = filter (Spec.kept E) ws.
Proof.
  revert kept; induction ws as [|w ws IH]; intros kept H; simpl in H.
  - now injection H as <-.
  - unfold Spec.kept at 1. simpl.
    destruct (keep E w) as [b|]; [|discriminate].
    destruct (filter_words E ws) as [kept'|]; [|discriminate].
    injection H as <-. rewrite (IH kept' eq_refl).
    unfold Spec.kept at 2. destruct b; reflexivity.
Qed.

Lemma filter_words_none (E : Env) (ws : list value) :
  filter_words E ws = None -> exists k, In (VInherited k) ws.
Proof.
  induction ws as [|w ws IH]; simpl; [discriminate|].
  destruct (keep E w) as [b|] eqn:Hk.
  - destruct (filter_words E ws); [discriminate|].
    intros _. destruct (IH eq_refl) as [k Hk']. exists k. now right.
  - intros _. destruct w as [s|k].
    + rewrite keep_string_spec in Hk. discriminate.
    + exists k. now left.
Qed.

Lemma alias_of_inherited (E : Env) (w k : jsstring) :
  alias_of E w = VInherited k <->
  k = w /\ get_own (aliases (config E)) w = None
  /\ existsb (str_eqb w) object_prototype_keys = true.
Proof.
  unfold alias_of, has_property, get.
  destruct (get_own (aliases (config E)) w) as [v|].
  - split; [discriminate | intros (_ & H & _); discriminate].
  - destruct (existsb (str_eqb w) object_prototype_keys).
    + split; [intros H; injection H as <-; tauto | intros (-> & _); reflexivity].
    + split; [discriminate | intros (_ & _ & H); discriminate].
Qed.

(** X6.  [analyse] throws exactly when filtering is on and some token
    names a member of [Object.prototype] without being a key of the
    alias table of its own; in every other case it returns. *)
Theorem analyse_throws_iff (E : Env) (raw : jsstring) (options : Options) :
  analyse E raw options = ThrowTypeError
  <-> no_filter options = false
      /\ exists w, In w (tokens E raw)
                   /\ get_own (aliases (config E)) w = None
                   /\ existsb (str_eqb w) object_prototype_keys = true.
Proof.
  split.
  - unfold analyse. destruct (no_filter options); [discriminate|].
    destruct (filter_words E (canonicalize E (tokens E raw))) eqn:Hf;
      [discriminate|].
    intros _. split; [reflexivity|].
    apply filter_words_none in Hf as [k Hk].
    apply canonicalize_In in Hk as (w & Hw & Ha).
    apply alias_of_inherited in Ha as (_ & Hown & Hproto).
    exists w. tauto.
  - intros (Hopt & w & Hw & Hown & Hproto).
    apply (@analyse_throws E raw w options Hw); [|exact Hopt].
    apply alias_of_inherited. tauto.
Qed.

Lemma positive_length_of_gt (n : nat) (y : number) :
  Spec.non_negative y = true -> gt (of_length n) y = true -> n <> 0.
Proof.
  intros Hy Hgt ->. change (of_length 0) with (S754_zero false) in Hgt.
  rewrite (zero_not_gt_non_negative y Hy) in Hgt. discriminate.
Qed.

(** X7.  With filtering on, no returned word is in the ignore set, none
    reads as a number once the fiat signs and the characters
    [k m b t , -] are taken out, and each has at least one letter
    [a-z]. *)
Theorem filtered_words_clean (E : Env) (raw : jsstring) (options : Options)
    (r : Result) :
  no_filter options = false ->
  analyse E raw options = Return r ->
  forall w, In w (words r) ->
    exists s, w = VString s
              /\ ignore_list_has E s = false
              /\ number_is_nan
                   (remove_class (fun c => existsb (N.eqb c) (lit "kmbt,-"))
                                 (strip_fiat E s)) = true
              /\ exists c, In c s /\ in_range 97 122 c = true.
Proof.
  intros Hopt Hr w Hw. unfold analyse in Hr. rewrite Hopt in Hr.
  destruct (filter_words E (canonicalize E (tokens E raw))) as [kept|] eqn:Hf;
    [|discriminate].
  injection Hr as <-. simpl in Hw.
  destruct (filter_words_kept E _ Hf w Hw) as [_ Hk].
  destruct w as [s|k]; [|rewrite keep_inherited in Hk; discriminate].
  rewrite keep_string_spec in Hk. injection Hk as Hk.
  unfold Spec.keep_string in Hk.
  apply andb_prop in Hk as [Hk Hign]. apply andb_prop in Hk as [Hk Hletters].
  apply andb_prop in Hk as [Hk _]. apply andb_prop in Hk as [Hk _].
  apply andb_prop in Hk as [_ Hnum].
  exists s. split; [reflexivity|]. split; [now apply negb_true_iff in Hign|].
  split; [exact Hnum|].
  apply positive_length_of_gt in Hletters.
  - unfold remove_class in Hletters.
    destruct (filter (fun c => negb (negb (in_range 97 122 c))) s) as [|c l] eqn:Hfl;
      [contradiction|].
    assert (Hc : In c (filter (fun c => negb (negb (in_range 97 122 c))) s))
      by (rewrite Hfl; now left).
    apply filter_In in Hc as [Hin Hc]. rewrite negb_involutive in Hc.
    exists c. split; assumption.
  - apply non_negative_floor, non_negative_mul; [apply non_negative_of_length|].
    reflexivity.
Qed.

(** The words returned for ["BTC stop loss now"], none of them ignored. *)
Lemma filtered_words_clean_witness :
  let E := Sample.env Sample.trading [lit "$"] (lit "the") in
  Forall
    (fun w => exists s, w = VString s
                /\ ignore_list_has E s = false
                /\ number_is_nan
                     (remove_class (fun c => existsb (N.eqb c) (lit "kmbt,-"))
                                   (strip_fiat E s)) = true
                /\ exists c, In c s /\ in_range 97 122 c = true)
    [VString (lit "bitcoin"); VString (lit "stop loss"); VString (lit "now")].
Proof.
  intros E. apply Forall_forall.
  exact (@filtered_words_clean E (lit "BTC stop loss now") None
           {| is_chinese := false;
              words := [VString (lit "bitcoin"); VString (lit "stop loss");
                        VString (lit "now")] |}
           eq_refl eq_refl).
Defined.

(** X8.  Filtering only removes: the call without the filter always
    returns, with the canonical forms of the tokens and no word twice;
    and a filtered call that returns has the same [is_chinese] and, in
    the same order, those of the unfiltered words that the callback
    keeps; neither list has a word twice. *)
Theorem filtering_only_removes (E : Env) (raw : jsstring) (options : Options)
    (r : Result) :
  (forall o, no_filter o = true ->
     exists r',
       analyse E raw o = Return r'
       /\ words r' = canonicalize E (tokens E raw)
       /\ NoDup (words r'))
  /\ (no_filter options = false ->
      analyse E raw options = Return r ->
      exists r',
        analyse E raw (Some (Some true)) = Return r'
        /\ is_chinese r = is_chinese r'
        /\ words r = filter (Spec.kept E) (words r')
        /\ NoDup (words r') /\ NoDup (words r)).
Proof.
  split.
  - intros o Ho. unfold analyse. rewrite Ho. eexists.
    split; [reflexivity|]. split; [reflexivity | apply unique_NoDup].
  - intros Hopt Hr. unfold analyse in *. rewrite Hopt in Hr. simpl.
    destruct (filter_words E (canonicalize E (tokens E raw))) as [kept|] eqn:Hf;
      [|discriminate].
    injection Hr as <-. eexists. split; [reflexivity|]. simpl.
    pose proof (filter_words_filter E _ Hf) as ->.
    repeat split.
    + apply unique_NoDup.
    + apply NoDup_filter, unique_NoDup.
Qed.

(** ["#BTC to the moon"] with ["the"] ignored, with and without the
    filter. *)
Lemma filtering_only_removes_witness :
  let E := Sample.env Sample.languages [lit "$"] (lit "the") in
  exists r',
    analyse E (lit "#BTC to the moon") (Some (Some true)) = Return r'
    /\ false = is_chinese r'
    /\ [VString (lit "#btc"); VString (lit "moon")]
       = filter (Spec.kept E) (words r')
    /\ NoDup (words r')
    /\ NoDup [VString (lit "#btc"); VString (lit "moon")].
Proof.
  intros E.
  exact (proj2 (@filtering_only_removes E (lit "#BTC to the moon") None
                  {| is_chinese := false;
                     words := [VString (lit "#btc"); VString (lit "moon")] |})
               eq_refl eq_refl).
Defined.

Lemma no_ideograph_tokens (words : list jsstring) :
  Forall (fun w => all_ascii w = true) words -> Spec.ideograph_tokens words = 0.
Proof.
  induction 1 as [|w words Hw _ IH]; simpl; [reflexivity|].
  destruct (all_ascii_no_cjk _ Hw) as [Hh _]. unfold matches_class in Hh.
  now rewrite Hh, IH.
Qed.

(** X9.  With a threshold that is not negative, a text whose tokens are
    all ASCII is never labelled Chinese. *)
Theorem ascii_tokens_not_chinese (E : Env) (raw : jsstring) (options : Options)
    (r : Result) :
  Spec.non_negative (hanzi_percentage (config E)) = true ->
  Forall (fun w => all_ascii w = true) (tokens E raw) ->
  analyse E raw options = Return r ->
  is_chinese r = false.
Proof.
  intros Hp Hascii Hr.
  pose proof (classify_no_ideograph E _ Hp (no_ideograph_tokens Hascii)) as Hc.
  unfold analyse in Hr. rewrite Hc in Hr.
  destruct (no_filter options).
  - now injection Hr as <-.
  - destruct (filter_words E (canonicalize E (tokens E raw)));
      [|discriminate].
    now injection Hr as <-.
Qed.

(** The tokens of ["BTC stop loss now"] are ASCII. *)
Lemma ascii_tokens_not_chinese_witness :
  is_chinese {| is_chinese := false;
                words := [VString (lit "bitcoin"); VString (lit "stop loss");
                          VString (lit "now")] |} = false.
Proof.
  apply (@ascii_tokens_not_chinese (Sample.env Sample.trading [lit "$"] [])
           (lit "BTC stop loss now") None).
  - reflexivity.
  - repeat constructor.
  - reflexivity.
Defined.

(** *** The ignore list and blank lines *)

Lemma split_lines_nonempty (s : jsstring) : split_lines s <> [].
Proof.
  destruct s as [|c s]; simpl; [discriminate|].
  destruct (N.eqb c 10); [discriminate|].
  destruct (split_lines s); discriminate.
Qed.

Lemma split_lines_trailing_newline (s : jsstring) :
  split_lines (s ++ [10%N]) = split_lines s ++ [[]].
Proof.
  induction s as [|c s IH]; [reflexivity|].
  simpl. destruct (N.eqb c 10); rewrite IH; [reflexivity|].
  destruct (split_lines s) as [|l ls] eqn:Hs; [|reflexivity].
  now apply split_lines_nonempty in Hs.
Qed.

(** X10.  An ignore-list file that ends with a newline has an empty
    last line, and the empty entry puts the bare suffixes in the set:
    [""], ["ing"], ["d"] and ["ed"] are ignored. *)
Theorem ignore_list_trailing_newline (E : Env) (s : jsstring) :
  ignore_list_file E = s ++ [10%N] ->
  ignore_list_has E [] = true
  /\ ignore_list_has E (lit "ing") = true
  /\ ignore_list_has E (lit "d") = true
  /\ ignore_list_has E (lit "ed") = true.
Proof.
  intros Hfile.
  assert (Hall : forall v, In v [[]; pluralize E [] 0; lit "ing"; lit "ing";
                                 lit "d"; lit "ed"] ->
                           ignore_list_has E v = true).
  { intros v Hv. apply ignore_list_has_In. unfold ignore_list.
    apply in_flat_map. exists []. split; [|exact Hv].
    rewrite Hfile, split_lines_trailing_newline, map_app.
    apply in_or_app. right. left. reflexivity. }
  repeat split; apply Hall; simpl; auto 10.
Qed.

(** A file with the line ["run"] and a final newline. *)
Lemma ignore_list_trailing_newline_witness :
  let E := Sample.env Sample.trading [lit "$"] (lit "run" ++ [10%N]) in
  ignore_list_has E [] = true
  /\ ignore_list_has E (lit "ing") = true
  /\ ignore_list_has E (lit "d") = true
  /\ ignore_list_has E (lit "ed") = true.
Proof.
  intros E. exact (@ignore_list_trailing_newline E (lit "run") eq_refl).
Defined.

(** *** Replacements *)

Lemma strip_prefix_app (key s rest : jsstring) :
  strip_prefix key s = Some rest -> s = key ++ rest.
Proof.
  revert s; induction key as [|x key IH]; intros s H; simpl in H.
  - now injection H as ->.
  - destruct s as [|y s]; [discriminate|].
    destruct (N.eqb x y) eqn:Hxy; [|discriminate].
    apply N.eqb_eq in Hxy. subst. simpl. f_equal. now apply IH.
Qed.

Lemma is_prefix_occurs (key s : jsstring) :
  is_prefix key s = true -> Spec.occurs key s.
Proof.
  unfold is_prefix. destruct (strip_prefix key s) as [rest|] eqn:H; [|discriminate].
  intros _. exists [], rest. simpl. now apply strip_prefix_app.
Qed.

Lemma occurs_tail (key s : jsstring) (c : N) :
  Spec.occurs key s -> Spec.occurs key (c :: s).
Proof. intros (pre & post & ->). now exists (c :: pre), post. Qed.

Lemma replace_alt_unfold alts (s : jsstring) :
  replace_alt alts 0 s
  = match find (fun kv => is_prefix (fst kv) s) alts with
    | Some (key, rep) =>
        rep ++
        match s with
        | [] => []
        | c :: s' =>
            match key with
            | [] => c :: replace_alt alts 0 s'
            | _ :: key' => replace_alt alts (length key') s'
            end
        end
    | None =>
        match s with [] => [] | c :: s' => c :: replace_alt alts 0 s' end
    end.
Proof. destruct s; reflexivity. Qed.

Lemma replace_alt_untouched (alts : list (jsstring * jsstring)) (s : jsstring) :
  (forall kv, In kv alts -> ~ Spec.occurs (fst kv) s) ->
  replace_alt alts 0 s = s.
Proof.
  induction s as [|c s IH]; intros Hno; rewrite replace_alt_unfold;
    destruct (find (fun kv => is_prefix (fst kv) _) alts) as [[key rep]|] eqn:Hf.
  - apply find_some in Hf as [Hin Hp]. apply is_prefix_occurs in Hp.
    now apply Hno in Hin.
  - reflexivity.
  - apply find_some in Hf as [Hin Hp]. apply is_prefix_occurs in Hp.
    now apply Hno in Hin.
  - f_equal. apply IH. intros kv Hin Hocc.
    apply (Hno kv Hin). now apply occurs_tail.
Qed.

(** X11.  Where [config.replaces] has a key and no key occurs in the
    text, [replaces_regex] leaves the text as it is. *)
Theorem apply_replaces_untouched (E : Env) (s : jsstring) :
  replaces (config E) <> [] ->
  (forall k v, In (k, v) (replaces (config E)) -> ~ Spec.occurs k s) ->
  apply_replaces E s = s.
Proof.
  intros Hne Hno. unfold apply_replaces.
  destruct (replaces (config E)) as [|kv t] eqn:Ht; [contradiction|].
  apply replace_alt_untouched. intros [k v] Hin. exact (Hno k v Hin).
Qed.

(** The key ["&amp;"] does not occur in ["moon"]. *)
Lemma apply_replaces_untouched_witness :
  apply_replaces (Sample.env Sample.trading [lit "$"] []) (lit "moon") = lit "moon".
Proof.
  apply apply_replaces_untouched.
  - discriminate.
  - intros k v [Heq|[]] (pre & post & H). injection Heq as <- <-.
    destruct pre as [|a [|b [|c [|d [|e pre]]]]]; discriminate.
Defined.

(** X12.  With an empty [config.replaces] the pattern of
    [replaces_regex] is empty: it matches before every character and at
    the end, the callback finds no value, and ["undefined"] is put at
    each of these places. *)
Theorem apply_replaces_empty_table (E : Env) (s : jsstring) :
  replaces (config E) = [] ->
  apply_replaces E s = Spec.surround (lit "undefined") s.
Proof.
  intros Ht. unfold apply_replaces, Spec.surround. rewrite Ht.
  change (alternatives (lit "undefined") [])
    with [(@nil N, lit "undefined")].
  induction s as [|c s IH]; [reflexivity|].
  rewrite replace_alt_unfold. cbn [find fst is_prefix strip_prefix].
  cbn [flat_map]. rewrite IH. reflexivity.
Qed.

(** An environment without replacements, on the text ["a"]. *)
Lemma apply_replaces_empty_table_witness :
  apply_replaces (Sample.env Sample.no_replaces [] []) (lit "a")
  = lit "undefinedaundefined".
Proof.
  exact (@apply_replaces_empty_table
           (Sample.env Sample.no_replaces [] []) (lit "a") eq_refl).
Defined.

(** *** Aliases in the text *)

Lemma find_all_false {A} (f : A -> bool) (l : list A) :
  (forall x, In x l -> f x = false) -> find f l = None.
Proof.
  induction l as [|x l IH]; intros H; simpl; [reflexivity|].
  rewrite (H x (or_introl eq_refl)). apply IH. intros y Hy. apply H. now right.
Qed.

Lemma replace_bounded_unfold alts prev (s : jsstring) :
  replace_bounded alts prev 0 s
  = match find (fun kv => bounded_match prev (fst kv) s) alts with
    | Some (key, rep) =>
        rep ++
        match s with
        | [] => []
        | c :: s' =>
            match key with
            | [] => c :: replace_bounded alts (Some c) 0 s'
            | _ :: key' => replace_bounded alts (Some c) (length key') s'
            end
        end
    | None =>
        match s with
        | [] => []
        | c :: s' => c :: replace_bounded alts (Some c) 0 s'
        end
    end.
Proof. destruct s; reflexivity. Qed.

Lemma replace_bounded_untouched (alts : list (jsstring * jsstring)) (s : jsstring) :
  (forall kv, In kv alts -> ~ Spec.occurs (fst kv) s) ->
  forall prev, replace_bounded alts prev 0 s = s.
Proof.
  induction s as [|c s IH]; intros Hno prev; rewrite replace_bounded_unfold;
    rewrite find_all_false; try reflexivity.
  - intros kv Hin. unfold bounded_match.
    destruct (strip_prefix (fst kv) []) as [rest|] eqn:Hp;
      [|apply andb_false_r].
    exfalso. apply (Hno kv Hin). exists [], rest. simpl.
    now apply strip_prefix_app.
  - f_equal. apply IH. intros kv Hin Hocc.
    apply (Hno kv Hin). now apply occurs_tail.
  - intros kv Hin. unfold bounded_match.
    destruct (strip_prefix (fst kv) (c :: s)) as [rest|] eqn:Hp;
      [|apply andb_false_r].
    exfalso. apply (Hno kv Hin). exists [], rest. simpl.
    now apply strip_prefix_app.
Qed.

Section OneWord.

Variable alts : list (jsstring * jsstring).
Hypothesis keys_nonempty : forall kv, In kv alts -> fst kv <> [].

Lemma no_match_at_end (prev : option N) :
  find (fun kv => bounded_match prev (fst kv) []) alts = None.
Proof.
  apply find_all_false. intros kv Hin. unfold bounded_match.
  destruct (fst kv) as [|x key] eqn:Hk; [now apply keys_nonempty in Hin|].
  simpl. apply andb_false_r.
Qed.

Lemma replace_bounded_skip_all (xs : jsstring) :
  forall prev, replace_bounded alts prev (length xs) xs = [].
Proof.
  induction xs as [|c xs IH]; intros prev.
  - rewrite replace_bounded_unfold, no_match_at_end. reflexivity.
  - simpl. apply IH.
Qed.

Lemma replace_bounded_inside_word (s : jsstring) :
  forallb word_char s = true ->
  forall p, word_char p = true -> replace_bounded alts (Some p) 0 s = s.
Proof.
  induction s as [|c s IH]; intros Hs p Hp; rewrite replace_bounded_unfold.
  - now rewrite no_match_at_end.
  - simpl in Hs. apply andb_prop in Hs as [Hc Hs].
    rewrite find_all_false.
    + f_equal. now apply IH.
    + intros kv _. unfold bounded_match, boundary. simpl. now rewrite Hp, Hc.
Qed.

Lemma last_of_word (key : jsstring) :
  key <> [] -> forallb word_char key = true -> word_char (last key 0%N) = true.
Proof.
  induction key as [|x key IH]; intros Hne Hall; [contradiction|].
  simpl in Hall. apply andb_prop in Hall as [Hx Hall].
  destruct key as [|y key]; [exact Hx|].
  change (last (x :: y :: key) 0%N) with (last (y :: key) 0%N).
  apply IH; [discriminate | exact Hall].
Qed.

Lemma bounded_match_whole_word (key s : jsstring) :
  key <> [] -> s <> [] -> forallb word_char s = true ->
  bounded_match None key s = str_eqb key s.
Proof.
  intros Hkey Hs Hall. unfold bounded_match.
  destruct s as [|c s']; [contradiction|].
  assert (Hc : word_char c = true) by (simpl in Hall; now apply andb_prop in Hall).
  unfold boundary at 1. simpl hd_error. simpl is_word. rewrite Hc. simpl xorb.
  cbn [andb].
  destruct (strip_prefix key (c :: s')) as [rest|] eqn:Hp.
  - apply strip_prefix_app in Hp.
    assert (Hparts : forallb word_char key = true /\ forallb word_char rest = true).
    { rewrite Hp in Hall. rewrite forallb_app in Hall. now apply andb_prop in Hall. }
    destruct Hparts as [Hk Hr].
    pose proof (last_of_word Hkey Hk) as Hlast.
    destruct key as [|x key']; [contradiction|].
    destruct rest as [|r rest']; unfold boundary, is_word; cbn [hd_error];
      rewrite Hlast.
    + rewrite app_nil_r in Hp. rewrite Hp. cbn [xorb].
      symmetry. apply str_eqb_refl.
    + simpl in Hr. apply andb_prop in Hr as [Hr _]. rewrite Hr. cbn [xorb].
      symmetry. apply str_eqb_neq. intros Heq. rewrite Heq in Hp.
      apply (f_equal (@length N)) in Hp. rewrite length_app in Hp.
      simpl in Hp. lia.
  - symmetry. apply str_eqb_neq. intros ->.
    assert (Hself : forall k : jsstring, strip_prefix k k = Some []).
    { induction k as [|a k IHk]; simpl; [reflexivity|].
      now rewrite N.eqb_refl. }
    rewrite Hself in Hp. discriminate.
Qed.

Lemma replace_bounded_one_word (s : jsstring) :
  s <> [] -> forallb word_char s = true ->
  replace_bounded alts None 0 s
  = match get_own alts s with Some v => v | None => s end.
Proof.
  intros Hs Hall. rewrite replace_bounded_unfold. unfold get_own.
  assert (Hext : forall l, (forall kv, In kv l -> fst kv <> []) ->
             find (fun kv => bounded_match None (fst kv) s) l
             = find (fun kv : jsstring * jsstring => str_eqb (fst kv) s) l).
  { induction l as [|kv l IH]; intros Hl; simpl; [reflexivity|].
    rewrite bounded_match_whole_word;
      [|apply Hl; now left | exact Hs | exact Hall].
    match goal with |- context [if ?b then _ else _] => destruct b end;
      [reflexivity|].
    apply IH. intros kv' Hin. apply Hl. now right. }
  rewrite (Hext alts keys_nonempty).
  destruct (find (fun kv => str_eqb (fst kv) s) alts) as [[key rep]|] eqn:Hf.
  - apply find_some in Hf as [Hin Heq]. simpl in Heq. apply str_eqb_eq in Heq.
    subst key. destruct s as [|c s']; [contradiction|].
    rewrite replace_bounded_skip_all. apply app_nil_r.
  - destruct s as [|c s']; [contradiction|].
    simpl in Hall. apply andb_prop in Hall as [Hc Hall].
    f_equal. now apply replace_bounded_inside_word.
Qed.

End OneWord.

(** X13.  On a text that is one word (characters of [\w] only), with an
    alias table that has keys and none of them empty, [aliases_regex]
    replaces the word when it is a key of the table, by its value, and
    leaves it alone when it is not, even where a key occurs inside it:
    the same result as the lookup of the canonicalization step. *)
Theorem apply_aliases_one_word (E : Env) (s : jsstring) :
  aliases (config E) <> [] ->
  (forall k v, In (k, v) (aliases (config E)) -> k <> []) ->
  s <> [] ->
  forallb word_char s = true ->
  apply_aliases E s
  = match get_own (aliases (config E)) s with Some v => v | None => s end.
Proof.
  intros Hne Hkeys Hs Hall. unfold apply_aliases.
  destruct (aliases (config E)) as [|kv t] eqn:Ht; [contradiction|].
  apply replace_bounded_one_word; try assumption.
  intros [k v] Hin. exact (Hkeys k v Hin).
Qed.

(** The alias [btc] replaces the word ["btc"] and not the word
    ["btcusd"]. *)
Lemma apply_aliases_one_word_witness :
  let E := Sample.env Sample.trading [lit "$"] [] in
  apply_aliases E (lit "btc") = lit "bitcoin"
  /\ apply_aliases E (lit "btcusd") = lit "btcusd".
Proof.
  intros E.
  assert (Hkeys : forall k v, In (k, v) (aliases (config E)) -> k <> []).
  { intros k v [Heq|[]]. injection Heq as <- <-. discriminate. }
  split.
  - apply (@apply_aliases_one_word E (lit "btc"));
      [discriminate | exact Hkeys | discriminate | reflexivity].
  - apply (@apply_aliases_one_word E (lit "btcusd"));
      [discriminate | exact Hkeys | discriminate | reflexivity].
Defined.

(** *** Short links *)

Lemma span_stops (p : N -> bool) (xs tail : jsstring) :
  forallb p xs = true ->
  match tail with [] => true | c :: _ => negb (p c) end = true ->
  span p (xs ++ tail) = (xs, tail).
Proof.
  intros Hxs Htail. induction xs as [|x xs IH]; simpl.
  - destruct tail as [|c tail]; [reflexivity|].
    simpl. apply negb_true_iff in Htail. now rewrite Htail.
  - simpl in Hxs. apply andb_prop in Hxs as [Hx Hxs].
    now rewrite Hx, (IH Hxs).
Qed.

Lemma remove_tco_skip (xs tail : jsstring) :
  remove_tco (length xs) (xs ++ tail) = remove_tco 0 tail.
Proof.
  induction xs as [|x xs IH]; simpl; [|exact IH].
  destruct tail; reflexivity.
Qed.

(** X14.  A [t.co] link at the head of a text is removed with its whole
    path, up to the first character that is not a letter, a digit, a
    dot or a hyphen; the dot of [t.co] in the pattern is not escaped, so
    any character but a line terminator may stand in its place. *)
Theorem remove_tco_link (d : N) (path tail : jsstring) :
  line_terminator d = false ->
  forallb url_char path = true ->
  match tail with [] => true | c :: _ => negb (url_char c) end = true ->
  remove_tco 0 (lit "https://t" ++ d :: lit "co/" ++ path ++ tail)
  = remove_tco 0 tail
  /\ remove_tco 0 (lit "http://t" ++ d :: lit "co/" ++ path ++ tail)
     = remove_tco 0 tail.
Proof.
  intros Hd Hpath Htail. split.
  - change (lit "https://t" ++ d :: lit "co/" ++ path ++ tail)
      with (104%N :: (lit "ttps://t" ++ [d] ++ lit "co/" ++ path) ++ tail).
    assert (Hm : tco_match (104%N :: (lit "ttps://t" ++ [d] ++ lit "co/" ++ path) ++ tail)
                 = Some (S (length (lit "ttps://t" ++ [d] ++ lit "co/" ++ path)))).
    { unfold tco_match, tco_tail. simpl. rewrite Hd.
      rewrite (span_stops url_char path tail Hpath Htail).
      reflexivity. }
    cbn [remove_tco]. rewrite Hm. cbn [pred]. apply remove_tco_skip.
  - change (lit "http://t" ++ d :: lit "co/" ++ path ++ tail)
      with (104%N :: (lit "ttp://t" ++ [d] ++ lit "co/" ++ path) ++ tail).
    assert (Hm : tco_match (104%N :: (lit "ttp://t" ++ [d] ++ lit "co/" ++ path) ++ tail)
                 = Some (S (length (lit "ttp://t" ++ [d] ++ lit "co/" ++ path)))).
    { unfold tco_match, tco_tail. simpl. rewrite Hd.
      rewrite (span_stops url_char path tail Hpath Htail).
      reflexivity. }
    cbn [remove_tco]. rewrite Hm. cbn [pred]. apply remove_tco_skip.
Qed.

(** The link [https://t.co/aB3] before [" gm"], and the same text with
    [x] for the dot. *)
Lemma remove_tco_link_witness :
  remove_tco 0 (lit "https://t.co/aB3 gm") = lit " gm"
  /\ remove_tco 0 (lit "http://txco/aB3 gm") = lit " gm".
Proof.
  split.
  - apply (proj1 (@remove_tco_link 46%N (lit "aB3") (lit " gm")
                    eq_refl eq_refl eq_refl)).
  - apply (proj2 (@remove_tco_link 120%N (lit "aB3") (lit " gm")
                    eq_refl eq_refl eq_refl)).
Defined.

(** *** Normalization of a plain text *)

Lemma remove_tco_untouched (s : jsstring) :
  ~ Spec.occurs (lit "http") s -> remove_tco 0 s = s.
Proof.
  induction s as [|c s IH]; intros Hno; [reflexivity|].
  cbn [remove_tco].
  destruct (tco_match (c :: s)) as [n|] eqn:Hm.
  - exfalso. apply Hno. apply is_prefix_occurs. unfold is_prefix.
    unfold tco_match in Hm.
    destruct (strip_prefix (lit "http") (c :: s)); [reflexivity | discriminate].
  - f_equal. apply IH. intros Hocc. apply Hno. now apply occurs_tail.
Qed.

Lemma expand_possessive_unfold (c : N) (t : jsstring) :
  expand_possessive (c :: t)
  = match t with
    | q :: x :: r =>
        if word_char c && N.eqb q 39 && N.eqb x 115
        then c :: lit " is" ++ expand_possessive r
        else c :: expand_possessive t
    | _ => c :: expand_possessive t
    end.
Proof. destruct t as [|q [|x r]]; reflexivity. Qed.

Lemma expand_possessive_untouched (s : jsstring) :
  ~ In 39%N s -> expand_possessive s = s.
Proof.
  induction s as [|c t IH]; intros Hno; [reflexivity|].
  assert (Ht : expand_possessive t = t) by (apply IH; intros H; apply Hno; now right).
  rewrite expand_possessive_unfold.
  destruct t as [|q [|x r]]; try (now rewrite Ht).
  assert (Hq : N.eqb q 39 = false).
  { apply N.eqb_neq. intros ->. apply Hno. right. now left. }
  rewrite Hq, andb_false_r. cbn [andb]. now rewrite Ht.
Qed.

(** X15.  A text that, once lower-cased, has no [http], no key of the
    replacement table, no key of the alias table and no apostrophe
    (both tables having keys) goes through the four rewriting steps
    unchanged: its normal form is the conversion of its lower-case
    form. *)
Theorem normalize_plain (E : Env) (raw : jsstring) :
  let text := toLowerCase E raw in
  ~ Spec.occurs (lit "http") text ->
  replaces (config E) <> [] ->
  (forall k v, In (k, v) (replaces (config E)) -> ~ Spec.occurs k text) ->
  aliases (config E) <> [] ->
  (forall k v, In (k, v) (aliases (config E)) -> ~ Spec.occurs k text) ->
  ~ In 39%N text ->
  normalize E raw = traditional_to_simplfiied E text.
Proof.
  intros text Hurl Hr Hrk Ha Hak Hquote. unfold normalize. fold text.
  rewrite (remove_tco_untouched Hurl).
  unfold apply_replaces, apply_aliases.
  destruct (replaces (config E)) as [|kr tr] eqn:Htr; [contradiction|].
  destruct (aliases (config E)) as [|ka ta] eqn:Hta; [contradiction|].
  cbn [alternatives].
  rewrite replace_alt_untouched
    by (intros [k v] Hin; exact (Hrk k v Hin)).
  rewrite replace_bounded_untouched
    by (intros [k v] Hin; exact (Hak k v Hin)).
  now rewrite (@expand_possessive_untouched text Hquote).
Qed.

(** ["Moon"] in the sample environment. *)
Lemma normalize_plain_witness :
  normalize (Sample.env Sample.trading [lit "$"] []) (lit "Moon") = lit "moon".
Proof.
  apply (@normalize_plain (Sample.env Sample.trading [lit "$"] []) (lit "Moon")).
  - intros (pre & post & H).
    destruct pre as [|a [|b [|c [|d [|e pre]]]]]; discriminate.
  - discriminate.
  - intros k v [Heq|[]] (pre & post & H). injection Heq as <- <-.
    destruct pre as [|a [|b [|c [|d [|e pre]]]]]; discriminate.
  - discriminate.
  - intros k v [Heq|[]] (pre & post & H). injection Heq as <- <-.
    destruct pre as [|a [|b [|c [|d [|e pre]]]]]; discriminate.
  - intros [H|[H|[H|[H|[]]]]]; discriminate.
Defined.

(** *** [escape_regex] *)

Lemma regex_special_not_hyphen (c : N) :
  regex_special c = true -> N.eqb c 45 = false.
Proof.
  intros H. destruct (N.eqb c 45) eqn:Hc; [|reflexivity].
  apply N.eqb_eq in Hc. subst. discriminate.
Qed.

Lemma escape_regex_chars (s : jsstring) :
  escape_regex s = flat_map Spec.escape_char s.
Proof.
  unfold escape_regex. induction s as [|c s IH]; [reflexivity|].
  cbn [flat_map]. rewrite flat_map_app, IH. f_equal.
  unfold Spec.escape_char. destruct (regex_special c) eqn:Hc.
  - cbn [flat_map]. rewrite (regex_special_not_hyphen c Hc). reflexivity.
  - cbn [flat_map]. destruct (N.eqb c 45); reflexivity.
Qed.

Lemma escape_char_step (x y : N) (A B : jsstring) :
  Spec.escape_char x ++ A = Spec.escape_char y ++ B -> x = y /\ A = B.
Proof.
  unfold Spec.escape_char.
  destruct (regex_special x) eqn:Hx, (regex_special y) eqn:Hy;
    destruct (N.eqb x 45) eqn:Hx', (N.eqb y 45) eqn:Hy';
    try apply N.eqb_eq in Hx'; try apply N.eqb_eq in Hy'; subst;
    simpl; intros H; injection H; intros; subst;
    try discriminate; try (split; congruence).
Qed.

Lemma escape_char_nonempty (x : N) (A : jsstring) : Spec.escape_char x ++ A <> [].
Proof.
  unfold Spec.escape_char.
  destruct (regex_special x); [discriminate|].
  destruct (N.eqb x 45); discriminate.
Qed.

(** X16.  [escape_regex] loses nothing: two strings have the same
    escaped form only if they are the same string, so distinct keys of a
    table give distinct alternatives of its pattern; and a string with
    none of the special characters and no hyphen is its own escaped
    form. *)
Theorem escape_regex_injective (a b : jsstring) :
  (escape_regex a = escape_regex b <-> a = b)
  /\ (forallb (fun c => negb (regex_special c) && negb (N.eqb c 45)) a = true ->
      escape_regex a = a).
Proof.
  split.
  - split; [|now intros ->].
    rewrite !escape_regex_chars. revert b.
    induction a as [|x a IH]; intros [|y b] H; cbn [flat_map] in H.
    + reflexivity.
    + symmetry in H. now apply escape_char_nonempty in H.
    + now apply escape_char_nonempty in H.
    + apply escape_char_step in H as [-> H]. f_equal. now apply IH.
  - rewrite escape_regex_chars. induction a as [|x a IH]; [reflexivity|].
    cbn [forallb flat_map]. intros H. apply andb_prop in H as [Hx Ha].
    apply andb_prop in Hx as [Hs Hh].
    apply negb_true_iff in Hs. apply negb_true_iff in Hh.
    unfold Spec.escape_char. rewrite Hs, Hh. simpl. f_equal. now apply IH.
Qed.

(** *** [freq_table] *)

Lemma own_count_set_same (t : counts) (k : jsstring) (c : count) :
  own_count (set_count t k c) k = Some c.
Proof.
  unfold own_count. induction t as [|[k' c'] t IH]; simpl.
  - now rewrite str_eqb_refl.
  - destruct (str_eqb k' k) eqn:Hk; simpl; rewrite Hk; [reflexivity | exact IH].
Qed.

Lemma own_count_set_other (t : counts) (k k' : jsstring) (c : count) :
  k' <> k -> own_count (set_count t k c) k' = own_count t k'.
Proof.
  intros Hne. unfold own_count. induction t as [|[k0 c0] t IH]; simpl.
  - apply str_eqb_neq in Hne.
    replace (str_eqb k k') with false; [reflexivity|].
    symmetry. apply str_eqb_neq. intros ->. apply str_eqb_neq in Hne. congruence.
  - destruct (str_eqb k0 k) eqn:Hk; simpl.
    + apply str_eqb_eq in Hk. subst k0.
      replace (str_eqb k k') with false; [reflexivity|].
      symmetry. apply str_eqb_neq. congruence.
    + destruct (str_eqb k0 k'); [reflexivity | exact IH].
Qed.

Lemma freq_step_other (t : counts) (entry k : jsstring) :
  k <> entry -> own_count (freq_step t entry) k = own_count t k.
Proof.
  intros Hne. unfold freq_step.
  destruct (own_count t entry) as [c|] eqn:Ho.
  - rewrite Ho. now apply own_count_set_other.
  - destruct (existsb (str_eqb entry) object_prototype_keys).
    + rewrite Ho. destruct (str_eqb entry (lit "__proto__")); [reflexivity|].
      now apply own_count_set_other.
    + rewrite own_count_set_same. rewrite own_count_set_other by assumption.
      now apply own_count_set_other.
Qed.

Lemma freq_step_same (t : counts) (k : jsstring) :
  own_count (freq_step t k) k
  = match own_count t k with
    | Some c => Some (increment c)
    | None =>
        if existsb (str_eqb k) object_prototype_keys
        then if str_eqb k (lit "__proto__") then None else Some NotANumber
        else Some (Count 1)
    end.
Proof.
  unfold freq_step. destruct (own_count t k) as [c|] eqn:Ho.
  - rewrite Ho. apply own_count_set_same.
  - destruct (existsb (str_eqb k) object_prototype_keys).
    + rewrite Ho. destruct (str_eqb k (lit "__proto__")); [exact Ho|].
      apply own_count_set_same.
    + rewrite own_count_set_same. apply own_count_set_same.
Qed.

Lemma occurrences_snoc (k e : jsstring) (array : list jsstring) :
  Spec.occurrences k (array ++ [e])
  = Spec.occurrences k array + (if str_eqb k e then 1 else 0).
Proof.
  unfold Spec.occurrences. rewrite filter_app, length_app. simpl.
  destruct (str_eqb k e); reflexivity.
Qed.

Lemma freq_table_own (array : list jsstring) (k : jsstring) :
  own_count (freq_table array) k
  = match Spec.occurrences k array with
    | 0 => None
    | S n =>
        if existsb (str_eqb k) object_prototype_keys
        then if str_eqb k (lit "__proto__") then None else Some NotANumber
        else Some (Count (S n))
    end.
Proof.
  unfold freq_table.
  induction array as [|e array IH] using rev_ind; [reflexivity|].
  rewrite fold_left_app. cbn [fold_left]. rewrite occurrences_snoc.
  destruct (str_eqb k e) eqn:Hke.
  - apply str_eqb_eq in Hke. subst e. rewrite freq_step_same, IH.
    generalize (existsb (str_eqb k) object_prototype_keys).
    generalize (str_eqb k (lit "__proto__")). intros proto inherited.
    destruct (Spec.occurrences k array) as [|n].
    + reflexivity.
    + replace (S n + 1) with (S (S n)) by lia.
      destruct inherited, proto; reflexivity.
  - apply str_eqb_neq in Hke. rewrite (freq_step_other _ Hke), IH.
    now rewrite Nat.add_0_r.
Qed.

(** X17.  The table of [freq_table] has, for every string that is in
    the array and names no member of [Object.prototype], the number of
    its occurrences, and nothing for a string that is not in the array;
    a string of the array that names a member of [Object.prototype]
    gets [NaN], whatever its number of occurrences, and [__proto__]
    gets no entry at all. *)
Theorem freq_table_counts (array : list jsstring) (k : jsstring) :
  own_count (freq_table array) k
  = match Spec.occurrences k array with
    | 0 => None
    | S n =>
        if existsb (str_eqb k) object_prototype_keys
        then if str_eqb k (lit "__proto__") then None else Some NotANumber
        else Some (Count (S n))
    end.
Proof. apply freq_table_own. Qed.

Lemma total_set_own (t : counts) (k : jsstring) (c c' : count) :
  own_count t k = Some c ->
  Spec.total_count (set_count t k c') + Spec.count_value c
  = Spec.total_count t + Spec.count_value c'.
Proof.
  unfold own_count. induction t as [|[k0 c0] t IH]; simpl; [discriminate|].
  destruct (str_eqb k0 k) eqn:Hk; simpl.
  - intros H. injection H as ->. destruct c, c'; simpl; lia.
  - intros H. specialize (IH H). destruct c0; simpl; lia.
Qed.

Lemma total_set_new (t : counts) (k : jsstring) (c' : count) :
  own_count t k = None ->
  Spec.total_count (set_count t k c') = Spec.total_count t + Spec.count_value c'.
Proof.
  unfold own_count. induction t as [|[k0 c0] t IH]; simpl.
  - intros _. destruct c'; simpl; lia.
  - destruct (str_eqb k0 k) eqn:Hk; simpl; [discriminate|].
    intros H. specialize (IH H). destruct c0; simpl; lia.
Qed.

(** X18.  The counts of the table add up to the number of array
    elements that name no member of [Object.prototype]: every such
    element is counted once, and the [NaN] entries count nothing. *)
Theorem freq_table_total (array : list jsstring) :
  Spec.total_count (freq_table array)
  = length (filter (fun e => negb (existsb (str_eqb e) object_prototype_keys))
                   array).
Proof.
  induction array as [|e array IH] using rev_ind; [reflexivity|].
  rewrite filter_app, length_app, <- IH. clear IH.
  pose proof (freq_table_own array e) as Hown.
  unfold freq_table in *. rewrite fold_left_app. cbn [fold_left filter].
  set (t := fold_left freq_step array []) in *.
  unfold freq_step.
  destruct (existsb (str_eqb e) object_prototype_keys) eqn:Hinh; cbn [negb length].
  - assert (Hcase : own_count t e = None \/ own_count t e = Some NotANumber).
    { rewrite Hown. destruct (Spec.occurrences e array);
        [|destruct (str_eqb e (lit "__proto__"))]; auto. }
    destruct Hcase as [Hn|Hs].
    + rewrite Hn. cbv beta iota zeta. rewrite Hn.
      destruct (str_eqb e (lit "__proto__")); [lia|].
      rewrite (total_set_new t e NotANumber Hn). simpl. lia.
    + rewrite Hs. cbv beta iota zeta. rewrite Hs.
      pose proof (total_set_own t e (increment NotANumber) Hs) as H.
      simpl in H. simpl increment. lia.
  - assert (Hcase : own_count t e = None
                    \/ exists n, own_count t e = Some (Count n)).
    { rewrite Hown. destruct (Spec.occurrences e array); eauto. }
    destruct Hcase as [Hn|[n Hs]].
    + rewrite Hn. cbv beta iota zeta. rewrite own_count_set_same.
      assert (H0 : own_count (set_count t e (Count 0)) e = Some (Count 0))
        by apply own_count_set_same.
      pose proof (total_set_own _ e (increment (Count 0)) H0) as H1.
      pose proof (total_set_new t e (Count 0) Hn) as H2.
      simpl in H1, H2. simpl increment. lia.
    + rewrite Hs. cbv beta iota zeta. rewrite Hs.
      pose proof (total_set_own t e (increment (Count n)) Hs) as H.
      simpl in H. simpl increment. lia.
Qed.

(** *** [RFC1738] *)

#[local] Ltac Zify.zify_post_hook ::= Z.to_euclidean_division_equations.

Lemma in_range_spec (lo hi c : N) :
  in_range lo hi c = true <-> (lo <= c <= hi)%N.
Proof.
  unfold in_range. rewrite andb_true_iff, !N.leb_le. tauto.
Qed.

Lemma hex_upper_encoded (n : N) :
  (n < 16)%N -> Spec.encoded_char (hex_upper n) = true.
Proof.
  intros Hn. unfold Spec.encoded_char, uri_unescaped, hex_upper, digit.
  destruct (N.ltb_spec n 10).
  - replace (in_range 48 57 (48 + n)) with true
      by (symmetry; apply in_range_spec; lia).
    now rewrite !orb_true_r.
  - replace (in_range 65 90 (55 + n)) with true
      by (symmetry; apply in_range_spec; lia).
    now rewrite !orb_true_r.
Qed.

Lemma percent_encoded (octets : list N) :
  Forall (fun o => (o < 256)%N) octets ->
  forallb Spec.encoded_char (flat_map percent octets) = true.
Proof.
  induction 1 as [|o octets Ho _ IH]; [reflexivity|].
  cbn [flat_map percent app forallb]. rewrite IH.
  rewrite !hex_upper_encoded by lia. reflexivity.
Qed.

Lemma utf8_octets (cp : N) :
  (cp < 0x110000)%N -> Forall (fun o => (o < 256)%N) (utf8 cp).
Proof.
  intros Hcp. unfold utf8.
  destruct (N.ltb_spec cp 0x80); [repeat constructor; lia|].
  destruct (N.ltb_spec cp 0x800); [repeat constructor; lia|].
  destruct (N.ltb_spec cp 0x10000); repeat constructor; lia.
Qed.

Lemma some_eq {A} (a b : A) : Some a = Some b -> a = b.
Proof. intros H. now injection H. Qed.

Lemma encode_unfold (c : N) (rest : jsstring) :
  encodeURIComponent (c :: rest)
  = if uri_unescaped c
    then option_map (cons c) (encodeURIComponent rest)
    else if in_range 0xDC00 0xDFFF c then None
    else if in_range 0xD800 0xDBFF c then
      match rest with
      | lo :: rest' =>
          if in_range 0xDC00 0xDFFF lo
          then option_map
                 (app (flat_map percent
                         (utf8 (0x10000 + (c - 0xD800) * 0x400 + (lo - 0xDC00))%N)))
                 (encodeURIComponent rest')
          else None
      | [] => None
      end
    else option_map (app (flat_map percent (utf8 c))) (encodeURIComponent rest).
Proof. reflexivity. Qed.

Lemma encode_writes_encoded_chars :
  forall (n : nat) (s out : jsstring),
    length s <= n ->
    forallb Spec.code_unit s = true ->
    encodeURIComponent s = Some out ->
    forallb Spec.encoded_char out = true.
Proof.
  induction n as [|n IH]; intros s out Hlen Hs Henc.
  - destruct s; [|simpl in Hlen; lia]. injection Henc as <-. reflexivity.
  - destruct s as [|c rest]; [injection Henc as <-; reflexivity|].
    simpl in Hlen. cbn [forallb] in Hs. apply andb_prop in Hs as [Hc Hrest].
    unfold Spec.code_unit in Hc. apply N.ltb_lt in Hc.
    rewrite encode_unfold in Henc.
    destruct (uri_unescaped c) eqn:Hu.
    + destruct (encodeURIComponent rest) as [out'|] eqn:Hr; [|discriminate].
      unfold option_map in Henc.
        apply some_eq in Henc. subst out. cbn [forallb].
      unfold Spec.encoded_char at 1. rewrite Hu. simpl.
      apply (IH rest out'); [lia | exact Hrest | exact Hr].
    + destruct (in_range 0xDC00 0xDFFF c); [discriminate|].
      destruct (in_range 0xD800 0xDBFF c) eqn:Hlead.
      * destruct rest as [|lo rest']; [discriminate|].
        destruct (in_range 0xDC00 0xDFFF lo) eqn:Htrail; [|discriminate].
        destruct (encodeURIComponent rest') as [out'|] eqn:Hr; [|discriminate].
        unfold option_map in Henc.
        apply some_eq in Henc. subst out. rewrite forallb_app.
        apply in_range_spec in Hlead. apply in_range_spec in Htrail.
        rewrite percent_encoded by (apply utf8_octets; lia).
        cbn [forallb] in Hrest. apply andb_prop in Hrest as [_ Hrest].
        apply (IH rest' out'); [simpl in Hlen; lia | exact Hrest | exact Hr].
      * destruct (encodeURIComponent rest) as [out'|] eqn:Hr; [|discriminate].
        unfold option_map in Henc.
        apply some_eq in Henc. subst out. rewrite forallb_app.
        rewrite percent_encoded by (apply utf8_octets; lia).
        apply (IH rest out'); [lia | exact Hrest | exact Hr].
Qed.

Lemma replace_char_app (c : N) (by_ a b : jsstring) :
  replace_char c by_ (a ++ b) = replace_char c by_ a ++ replace_char c by_ b.
Proof. apply flat_map_app. Qed.

Lemma rfc1738_replacements_cons (x : N) (e : jsstring) :
  Spec.rfc1738_replacements (x :: e)
  = Spec.rfc1738_replacements [x] ++ Spec.rfc1738_replacements e.
Proof.
  unfold Spec.rfc1738_replacements.
  change (x :: e) with ([x] ++ e). now rewrite !replace_char_app.
Qed.

Lemma rfc1738_replacements_char (x : N) :
  Spec.encoded_char x = true ->
  forallb Spec.url_safe (Spec.rfc1738_replacements [x]) = true.
Proof.
  intros Hx.
  destruct (N.eqb x 33) eqn:H33; [apply N.eqb_eq in H33; now subst|].
  destruct (N.eqb x 39) eqn:H39; [apply N.eqb_eq in H39; now subst|].
  destruct (N.eqb x 40) eqn:H40; [apply N.eqb_eq in H40; now subst|].
  destruct (N.eqb x 41) eqn:H41; [apply N.eqb_eq in H41; now subst|].
  destruct (N.eqb x 42) eqn:H42; [apply N.eqb_eq in H42; now subst|].
  unfold Spec.rfc1738_replacements, replace_char. cbn [flat_map app].
  rewrite H33. cbn [flat_map app]. rewrite H39. cbn [flat_map app].
  rewrite H40. cbn [flat_map app]. rewrite H41. cbn [flat_map app].
  rewrite H42. cbn [forallb app].
  unfold Spec.encoded_char, uri_unescaped in Hx. unfold Spec.url_safe.
  simpl existsb in *. rewrite H33, H39, H40, H41, H42 in Hx.
  destruct (digit x), (in_range 65 90 x), (in_range 97 122 x),
    (N.eqb x 45), (N.eqb x 95), (N.eqb x 46), (N.eqb x 126), (N.eqb x 37);
    simpl in *; congruence.
Qed.

Lemma rfc1738_replacements_safe (e : jsstring) :
  forallb Spec.encoded_char e = true ->
  forallb Spec.url_safe (Spec.rfc1738_replacements e) = true.
Proof.
  induction e as [|x e IH]; [reflexivity|].
  cbn [forallb]. intros H. apply andb_prop in H as [Hx He].
  rewrite rfc1738_replacements_cons, forallb_app.
  now rewrite (rfc1738_replacements_char x Hx), (IH He).
Qed.

(** X19.  Whatever [RFC1738] returns for a string of 16-bit code units
    is made of letters, digits, [- _ . ~] and the percent sign only:
    none of [! ' ( ) *] and no other reserved or non-ASCII character
    is left in it. *)
Theorem rfc1738_alphabet (s out : jsstring) :
  forallb Spec.code_unit s = true ->
  RFC1738 s = Some out ->
  forallb Spec.url_safe out = true.
Proof.
  intros Hs H. unfold RFC1738 in H.
  destruct (encodeURIComponent s) as [e|] eqn:He; [|discriminate].
  injection H as <-. apply rfc1738_replacements_safe.
  exact (@encode_writes_encoded_chars (length s) s e (le_n _) Hs He).
Qed.

(** A text with a space, the five characters and an ideograph. *)
Lemma rfc1738_alphabet_witness :
  forallb Spec.url_safe (lit "a%20%21%27%28%29%2A%E4%B8%AD") = true.
Proof.
  apply (@rfc1738_alphabet (lit "a !'()*" ++ [0x4E2D%N])); reflexivity.
Defined.

Lemma unreserved_unescaped (c : N) :
  Spec.rfc3986_unreserved c = true -> uri_unescaped c = true.
Proof.
  unfold Spec.rfc3986_unreserved, uri_unescaped. simpl existsb.
  destruct (digit c), (in_range 65 90 c), (in_range 97 122 c),
    (N.eqb c 45), (N.eqb c 95), (N.eqb c 46), (N.eqb c 126);
    simpl; intros H; try discriminate; now rewrite ?orb_true_r.
Qed.

Lemma unreserved_not (c k : N) :
  Spec.rfc3986_unreserved k = false ->
  Spec.rfc3986_unreserved c = true -> N.eqb c k = false.
Proof.
  intros Hk Hc. destruct (N.eqb c k) eqn:H; [|reflexivity].
  apply N.eqb_eq in H. congruence.
Qed.

(** X20.  A string of letters, digits and [- _ . ~] is its own
    encoding. *)
Theorem rfc1738_unreserved (s : jsstring) :
  forallb Spec.rfc3986_unreserved s = true -> RFC1738 s = Some s.
Proof.
  intros Hs. unfold RFC1738.
  assert (Henc : encodeURIComponent s = Some s).
  { induction s as [|c s IH]; [reflexivity|].
    cbn [forallb] in Hs. apply andb_prop in Hs as [Hc Hs].
    rewrite encode_unfold, (unreserved_unescaped c Hc), (IH Hs). reflexivity. }
  rewrite Henc. unfold option_map. f_equal.
  fold (Spec.rfc1738_replacements s).
  induction s as [|c s IH]; [reflexivity|].
  cbn [forallb] in Hs. apply andb_prop in Hs as [Hc Hs].
  rewrite rfc1738_replacements_cons, IH; [|exact Hs|].
  - unfold Spec.rfc1738_replacements, replace_char. cbn [flat_map app].
    rewrite (unreserved_not c 33 eq_refl Hc). cbn [flat_map app].
    rewrite (unreserved_not c 39 eq_refl Hc). cbn [flat_map app].
    rewrite (unreserved_not c 40 eq_refl Hc). cbn [flat_map app].
    rewrite (unreserved_not c 41 eq_refl Hc). cbn [flat_map app].
    rewrite (unreserved_not c 42 eq_refl Hc). reflexivity.
  - clear IH Henc. induction s as [|d s IH]; [reflexivity|].
    cbn [forallb] in Hs. apply andb_prop in Hs as [Hd Hs].
    rewrite encode_unfold, (unreserved_unescaped d Hd), (IH Hs). reflexivity.
Qed.

(** A handle. *)
Lemma rfc1738_unreserved_witness :
  RFC1738 (lit "x-cloud_1.0~") = Some (lit "x-cloud_1.0~").
Proof. apply rfc1738_unreserved. reflexivity. Defined.

Lemma unescaped_not_surrogate (c : N) :
  uri_unescaped c = true -> in_range 0xD800 0xDFFF c = false.
Proof.
  intros H. destruct (in_range 0xD800 0xDFFF c) eqn:Hs; [|reflexivity].
  apply in_range_spec in Hs.
  unfold uri_unescaped, digit in H. simpl existsb in H.
  repeat (apply orb_prop in H; destruct H as [H|H]);
    try (apply in_range_spec in H; lia);
    try (apply N.eqb_eq in H; lia); discriminate.
Qed.

Lemma code_points_unfold (hi : N) (rest : jsstring) :
  code_points (hi :: rest)
  = match rest with
    | lo :: rest' =>
        if in_range 0xD800 0xDBFF hi && in_range 0xDC00 0xDFFF lo
        then (0x10000 + (hi - 0xD800) * 0x400 + (lo - 0xDC00))%N :: code_points rest'
        else hi :: code_points rest
    | [] => [hi]
    end.
Proof. destruct rest; reflexivity. Qed.

Lemma encode_throws_iff :
  forall (n : nat) (s : jsstring),
    length s <= n ->
    (encodeURIComponent s = None
     <-> existsb (in_range 0xD800 0xDFFF) (code_points s) = true).
Proof.
  induction n as [|n IH]; intros s Hlen.
  - destruct s; [|simpl in Hlen; lia]. simpl. split; discriminate.
  - destruct s as [|c rest]; [simpl; split; discriminate|].
    simpl in Hlen. rewrite encode_unfold, code_points_unfold.
    assert (Hopt : forall (f : jsstring -> jsstring) o,
               option_map f o = None <-> o = None)
      by (intros f [x|]; simpl; split; congruence).
    destruct (uri_unescaped c) eqn:Hu.
    { pose proof (unescaped_not_surrogate c Hu) as Hns.
      assert (Hlead : in_range 0xD800 0xDBFF c = false).
      { destruct (in_range 0xD800 0xDBFF c) eqn:Hl; [|reflexivity].
        apply in_range_spec in Hl.
        assert (in_range 0xD800 0xDFFF c = true) by (apply in_range_spec; lia).
        congruence. }
      rewrite Hopt, Hlead. cbn [andb].
      destruct rest as [|lo rest']; [simpl; rewrite Hns; split; discriminate|].
      cbn [existsb]. rewrite Hns. cbn [orb]. apply IH. lia. }
    destruct (in_range 0xDC00 0xDFFF c) eqn:Htrail.
    { apply in_range_spec in Htrail.
      assert (Hs : in_range 0xD800 0xDFFF c = true) by (apply in_range_spec; lia).
      assert (Hl : in_range 0xD800 0xDBFF c = false).
      { destruct (in_range 0xD800 0xDBFF c) eqn:Hl; [|reflexivity].
        apply in_range_spec in Hl. lia. }
      rewrite Hl. cbn [andb].
      destruct rest; cbn [existsb]; rewrite Hs; split; reflexivity. }
    destruct (in_range 0xD800 0xDBFF c) eqn:Hlead.
    { apply in_range_spec in Hlead.
      assert (Hs : in_range 0xD800 0xDFFF c = true) by (apply in_range_spec; lia).
      destruct rest as [|lo rest'];
        [cbn [existsb]; rewrite Hs; split; reflexivity|].
      cbn [andb]. destruct (in_range 0xDC00 0xDFFF lo) eqn:Hlo.
      - rewrite Hopt. cbn [existsb].
        replace (in_range 0xD800 0xDFFF
                   (0x10000 + (c - 0xD800) * 0x400 + (lo - 0xDC00)))
          with false
          by (symmetry; apply not_true_is_false; intros Hx;
              apply in_range_spec in Hx; lia).
        cbn [orb]. apply IH. simpl in Hlen. lia.
      - cbn [existsb]. rewrite Hs. split; reflexivity. }
    cbn [andb]. rewrite Hopt.
    assert (Hs : in_range 0xD800 0xDFFF c = false).
    { destruct (in_range 0xD800 0xDFFF c) eqn:Hs; [|reflexivity].
      apply in_range_spec in Hs.
      apply not_true_iff_false in Htrail. apply not_true_iff_false in Hlead.
      rewrite in_range_spec in Htrail, Hlead. lia. }
    destruct rest as [|lo rest']; [simpl; rewrite Hs; split; discriminate|].
    cbn [existsb]. rewrite Hs. cbn [orb]. apply IH. lia.
Qed.

(** X21.  [RFC1738] throws exactly on the strings in which some
    surrogate is not part of a pair (a lead surrogate followed by a
    trail surrogate); every other string is encoded. *)
Theorem rfc1738_throws_iff (s : jsstring) :
  RFC1738 s = None
  <-> existsb (in_range 0xD800 0xDFFF) (code_points s) = true.
Proof.
  unfold RFC1738. rewrite <- (@encode_throws_iff (length s) s (le_n _)).
  destruct (encodeURIComponent s); simpl; split; congruence.
Qed.

(** *** Fiat signs and amounts *)

Lemma replace_alt_erasing (alts : list (jsstring * jsstring)) (s : jsstring) :
  (forall kv, In kv alts -> snd kv = []) ->
  (forall kv, In kv alts -> fst kv = [] \/ ~ Spec.occurs (fst kv) s) ->
  replace_alt alts 0 s = s.
Proof.
  intros Hrep. induction s as [|c s IH]; intros Hno; rewrite replace_alt_unfold;
    destruct (find (fun kv => is_prefix (fst kv) _) alts) as [[key rep]|] eqn:Hf.
  - apply find_some in Hf as [Hin _].
    pose proof (Hrep _ Hin) as Hr. simpl in Hr. now subst rep.
  - reflexivity.
  - apply find_some in Hf as [Hin Hp]. apply is_prefix_occurs in Hp.
    pose proof (Hrep _ Hin) as Hr. simpl in Hr. subst rep.
    destruct (Hno _ Hin) as [Hk|Hk]; simpl in Hk; [|contradiction].
    subst key. simpl. f_equal. apply IH. intros kv Hkv.
    destruct (Hno kv Hkv) as [H|H]; [now left|].
    right. intros Hocc. apply H. now apply occurs_tail.
  - f_equal. apply IH. intros kv Hkv.
    destruct (Hno kv Hkv) as [H|H]; [now left|].
    right. intros Hocc. apply H. now apply occurs_tail.
Qed.

(** X22.  [FIAT_REGEX] takes nothing out of a token in which no fiat
    sign occurs; an empty sign, or an empty list of signs, makes the
    pattern match the empty string and changes nothing either. *)
Theorem strip_fiat_untouched (E : Env) (s : jsstring) :
  (forall sign, In sign (cmc_fiat_signs E) -> sign = [] \/ ~ Spec.occurs sign s) ->
  strip_fiat E s = s.
Proof.
  intros Hno. unfold strip_fiat. apply replace_alt_erasing.
  - intros kv Hin. destruct (cmc_fiat_signs E) as [|sg sgs]; simpl in Hin.
    + destruct Hin as [<-|[]]. reflexivity.
    + destruct Hin as [<-|Hin]; [reflexivity|].
      apply in_map_iff in Hin as (x & <- & _). reflexivity.
  - intros kv Hin. destruct (cmc_fiat_signs E) as [|sg sgs] eqn:Hs; simpl in Hin.
    + destruct Hin as [<-|[]]. now left.
    + destruct Hin as [<-|Hin]; [apply Hno; now left|].
      apply in_map_iff in Hin as (x & <- & Hx). apply Hno. now right.
Qed.

(** The sign [$] does not occur in ["moon"]. *)
Lemma strip_fiat_untouched_witness :
  strip_fiat (Sample.env Sample.trading [lit "$"] []) (lit "moon") = lit "moon".
Proof.
  apply strip_fiat_untouched.
  intros sign [<-|[]]. right. intros (pre & post & H).
  destruct pre as [|a [|b [|c [|d [|e pre]]]]]; discriminate.
Defined.

Lemma span_all (p : N -> bool) (s : jsstring) :
  forallb p s = true -> span p s = (s, []).
Proof.
  induction s as [|c s IH]; [reflexivity|].
  simpl. intros H. apply andb_prop in H as [Hc Hs]. now rewrite Hc, (IH Hs).
Qed.

Lemma digit_not_space (c : N) : digit c = true -> white_space c = false.
Proof.
  intros H. apply in_range_spec in H.
  destruct (white_space c) eqn:Hw; [|reflexivity].
  unfold white_space, line_terminator in Hw.
  repeat (apply orb_prop in Hw; destruct Hw as [Hw|Hw]);
    try (apply N.eqb_eq in Hw; lia);
    try (apply in_range_spec in Hw; lia).
Qed.

Lemma trim_start_digits (s : jsstring) :
  forallb digit s = true -> trim_start s = s.
Proof.
  destruct s as [|c s]; [reflexivity|].
  simpl. intros H. apply andb_prop in H as [Hc _].
  now rewrite (digit_not_space c Hc).
Qed.

Lemma trim_digits (s : jsstring) : forallb digit s = true -> trim s = s.
Proof.
  intros H. unfold trim. rewrite (trim_start_digits s H).
  rewrite trim_start_digits; [apply rev_involutive|].
  rewrite forallb_forall in *. intros c Hc. apply H. now apply in_rev.
Qed.

(** A string of digits is a number, and so is the empty string. *)
Lemma digits_are_numeric (s : jsstring) :
  forallb digit s = true -> number_is_nan s = false.
Proof.
  intros H. unfold number_is_nan. rewrite (trim_digits s H).
  destruct s as [|c0 s]; [reflexivity|].
  cbn [nonempty andb]. apply negb_false_iff.
  assert (Hdec : unsigned_decimal (c0 :: s) = true).
  { unfold unsigned_decimal. rewrite (span_all digit _ H).
    apply orb_true_r. }
  pose proof H as H'. cbn [forallb] in H'. apply andb_prop in H' as [H0 Hs].
  apply in_range_spec in H0.
  unfold numeric_literal. destruct s as [|c1 r]; [exact Hdec|].
  cbn [forallb] in Hs. apply andb_prop in Hs as [H1 _]. apply in_range_spec in H1.
  repeat match goal with
         | |- context [N.eqb c1 ?k] =>
             rewrite (proj2 (N.eqb_neq c1 k)) by lia
         end.
  rewrite !andb_false_r.
  repeat match goal with
         | |- context [N.eqb c0 ?k] =>
             rewrite (proj2 (N.eqb_neq c0 k)) by lia
         end.
  exact Hdec.
Qed.

Lemma remove_amount_letters (s : jsstring) :
  forallb Spec.amount_char s = true ->
  forallb digit (remove_class (fun c => existsb (N.eqb c) (lit "kmbt,-")) s) = true.
Proof.
  unfold remove_class. induction s as [|c s IH]; [reflexivity|].
  cbn [forallb filter]. intros H. apply andb_prop in H as [Hc Hs].
  unfold Spec.amount_char in Hc.
  destruct (existsb (N.eqb c) (lit "kmbt,-")); cbn [negb].
  - now apply IH.
  - rewrite orb_false_r in Hc. cbn [forallb]. now rewrite Hc, (IH Hs).
Qed.

(** X23.  A token that, once the fiat signs are taken out, is made of
    digits and the characters [k m b t , -] only is dropped by the
    filter: amounts such as [100k] or [1,000], and also words spelled
    with these four letters alone. *)
Theorem amounts_are_dropped (E : Env) (w : jsstring) :
  forallb Spec.amount_char (strip_fiat E w) = true ->
  keep E (VString w) = Some false.
Proof.
  intros H. rewrite keep_string_spec. f_equal. unfold Spec.keep_string.
  rewrite (digits_are_numeric _ (remove_amount_letters _ H)).
  rewrite andb_false_r. reflexivity.
Qed.

(** The amount [$100k], and the word [btt]. *)
Lemma amounts_are_dropped_witness :
  let E := Sample.env Sample.trading [lit "$"] [] in
  keep E (VString (lit "$100k")) = Some false
  /\ keep E (VString (lit "btt")) = Some false.
Proof.
  intros E. split; apply amounts_are_dropped; reflexivity.
Defined.

(** *** The cursor after a term *)

(** X24.  When the search finds a term at cursor [i], with window [j],
    the token pushed is the texts of segments [i] to [i + j] joined
    with nothing, and the next run of the loop body is at [i + j + 2]:
    segment [i + j + 1], the one after the term, is passed over. *)
Theorem term_match_step (ts : list (list jsstring)) (segments : list Segment)
    (fuel i j : nat) (si : Segment) (m words : list jsstring) :
  nth_error segments i = Some si ->
  search_windows ts segments i (first_window ts) = Some (m, j) ->
  m = Spec.window segments i j
  /\ scan (S fuel) ts segments i words
     = scan fuel ts segments (i + j + 2)
            (words ++ [join [] (Spec.window segments i j)]).
Proof.
  intros Hi Hs.
  pose proof (search_windows_largest ts segments i (first_window ts)) as H.
  rewrite Hs in H. destruct H as (_ & Hm & _).
  split; [exact Hm|]. rewrite <- Hm. now apply scan_after_term with (si := si).
Qed.

(** The term [c++] at the head of [c++code]. *)
Lemma term_match_step_witness :
  let ts := [[lit "c"; lit "+"; lit "+"]] in
  let segments :=
    [Sample.word "c"; Sample.other "+"; Sample.other "+"; Sample.word "code"] in
  [lit "c"; lit "+"; lit "+"] = Spec.window segments 0 2
  /\ scan 1 ts segments 0 []
     = scan 0 ts segments 4 ([] ++ [join [] (Spec.window segments 0 2)]).
Proof.
  intros ts segments.
  apply (@term_match_step ts segments 0 0 2 (Sample.word "c")
           [lit "c"; lit "+"; lit "+"] []); reflexivity.
Defined.

(** *** The hashtag scenario *)

Lemma strip_prefix_self (key post : jsstring) :
  strip_prefix key (key ++ post) = Some post.
Proof.
  induction key as [|x key IH]; simpl; [reflexivity|].
  now rewrite N.eqb_refl.
Qed.

Lemma occursb_complete (key s : jsstring) :
  Spec.occurs key s -> Spec.occursb key s = true.
Proof.
  intros (pre & post & ->). induction pre as [|c pre IH].
  - simpl app. destruct (key ++ post) eqn:Hs; simpl;
      unfold is_prefix; rewrite <- Hs, strip_prefix_self; reflexivity.
  - simpl. rewrite IH. apply orb_true_r.
Qed.

Lemma not_occurs (key s : jsstring) :
  Spec.occursb key s = false -> ~ Spec.occurs key s.
Proof.
  intros H Hocc. apply occursb_complete in Hocc. congruence.
Qed.

Lemma strip_fiat_same (E : Env) (s : jsstring) :
  (forall sign, In sign (cmc_fiat_signs E) -> sign = [] \/ ~ Spec.occurs sign s) ->
  strip_fiat E s = s.
Proof.
  intros Hno. unfold strip_fiat. apply replace_alt_erasing.
  - intros kv Hin. destruct (cmc_fiat_signs E) as [|sg sgs]; simpl in Hin.
    + destruct Hin as [<-|[]]. reflexivity.
    + destruct Hin as [<-|Hin]; [reflexivity|].
      apply in_map_iff in Hin as (x & <- & _). reflexivity.
  - intros kv Hin. destruct (cmc_fiat_signs E) as [|sg sgs] eqn:Hs; simpl in Hin.
    + destruct Hin as [<-|[]]. now left.
    + destruct Hin as [<-|Hin]; [apply Hno; now left|].
      apply in_map_iff in Hin as (x & <- & Hx). apply Hno. now right.
Qed.

Lemma get_own_key (t : table) (k v : jsstring) :
  get_own t k = Some v -> exists v', In (k, v') t.
Proof.
  unfold get_own.
  destruct (find (fun kv => str_eqb (fst kv) k) t) as [[k' v']|] eqn:Hf;
    [|discriminate].
  intros _. apply find_some in Hf as [Hin Heq]. simpl in Heq.
  apply str_eqb_eq in Heq. subst k'. now exists v'.
Qed.

(** C2, as the code has it.  Text ["#BTC to the moon"], lower-cased to
    ["#btc to the moon"], left alone by the converter and split at the
    spaces and after the [#]; a replacement table and an alias table
    that have keys, none of which occurs in the lower-cased text; no
    term matching at any cursor; no fiat sign occurring in ["#btc"],
    ["the"] or ["moon"].  Then the normal form is ["#btc to the moon"],
    the tag rule gives the token ["#btc"], and ["to"], ["the"],
    ["moon"] follow as plain words; ["to"] fails the length floor;
    ["the"], of length 3, passes it and is dropped by the ignore set
    alone; with ["#btc"] and ["moon"] outside the ignore set the words
    are [["#btc"; "moon"]] when ["the"] is in it and
    [["#btc"; "the"; "moon"]] when not. *)
Theorem scenario_to_the_moon (E : Env) :
  let raw := lit "#BTC to the moon" in
  let text := lit "#btc to the moon" in
  let segments :=
    [Sample.other "#"; Sample.word "btc"; Sample.other " "; Sample.word "to";
     Sample.other " "; Sample.word "the"; Sample.other " "; Sample.word "moon"] in
  toLowerCase E raw = text ->
  traditional_to_simplfiied E text = text ->
  segmenter_segment E text = segments ->
  replaces (config E) <> [] ->
  (forall k v, In (k, v) (replaces (config E)) -> ~ Spec.occurs k text) ->
  aliases (config E) <> [] ->
  (forall k v, In (k, v) (aliases (config E)) -> ~ Spec.occurs k text) ->
  (forall i, i < length segments ->
             search_windows (term_segments E) segments i
                            (first_window (term_segments E)) = None) ->
  (forall sign w, In sign (cmc_fiat_signs E) ->
                  In w [lit "#btc"; lit "the"; lit "moon"] ->
                  sign = [] \/ ~ Spec.occurs sign w) ->
  ignore_list_has E (lit "#btc") = false ->
  ignore_list_has E (lit "moon") = false ->
  normalize E raw = text
  /\ tag_token segments 0 (Sample.other "#") = Some (lit "#btc")
  /\ tokens E raw = [lit "#btc"; lit "to"; lit "the"; lit "moon"]
  /\ Nat.ltb 2 (length (lit "to")) = false
  /\ keep E (VString (lit "to")) = Some false
  /\ Nat.ltb 2 (length (lit "the")) = true
  /\ keep E (VString (lit "the")) = Some (negb (ignore_list_has E (lit "the")))
  /\ forall options,
       no_filter options = false ->
       exists r,
         analyse E raw options = Return r
         /\ words r = if ignore_list_has E (lit "the")
                      then [VString (lit "#btc"); VString (lit "moon")]
                      else [VString (lit "#btc"); VString (lit "the");
                            VString (lit "moon")].
Proof.
  intros raw text segments Hlow Hconv Hseg Hr Hrk Ha Hak Hterms Hfiat Htag Hmoon.
  assert (Hnorm : normalize E raw = text).
  { unfold normalize. rewrite Hlow.
    change (remove_tco 0 text) with text.
    unfold apply_replaces, apply_aliases.
    destruct (replaces (config E)) as [|kr tr] eqn:Htr; [contradiction|].
    destruct (aliases (config E)) as [|ka ta] eqn:Hta; [contradiction|].
    cbn [alternatives].
    rewrite replace_alt_untouched by (intros [k v] Hin; exact (Hrk k v Hin)).
    rewrite replace_bounded_untouched by (intros [k v] Hin; exact (Hak k v Hin)).
    exact Hconv. }
  assert (Hocc : forall w, In w [lit "#btc"; lit "to"; lit "the"; lit "moon"] ->
                           Spec.occurs w text).
  { intros w [<-|[<-|[<-|[<-|[]]]]].
    - exists [], (lit " to the moon"). reflexivity.
    - exists (lit "#btc "), (lit " the moon"). reflexivity.
    - exists (lit "#btc to "), (lit " moon"). reflexivity.
    - exists (lit "#btc to the "), []. reflexivity. }
  assert (Hplain : forall w, In w [lit "#btc"; lit "to"; lit "the"; lit "moon"] ->
                             alias_of E w = VString w).
  { intros w Hw. unfold alias_of, has_property.
    destruct (get_own (aliases (config E)) w) as [v|] eqn:Hown.
    - exfalso. apply get_own_key in Hown as [v' Hin].
      exact (Hak w v' Hin (Hocc w Hw)).
    - destruct Hw as [<-|[<-|[<-|[<-|[]]]]]; reflexivity. }
  assert (Hclean : forall w, In w [lit "#btc"; lit "the"; lit "moon"] ->
                             strip_fiat E w = w).
  { intros w Hw. apply strip_fiat_same. intros sign Hs. exact (Hfiat sign w Hs Hw). }
  assert (Htok : tokens E raw = [lit "#btc"; lit "to"; lit "the"; lit "moon"]).
  { unfold tokens, tokenize. rewrite Hnorm, Hseg.
    rewrite (scan_no_terms _ _ Hterms). reflexivity. }
  assert (Hto : keep E (VString (lit "to")) = Some false).
  { rewrite keep_ascii by reflexivity.
    change (Nat.ltb 2 (length (lit "to"))) with false.
    now rewrite andb_false_r. }
  assert (Hthe : keep E (VString (lit "the"))
                 = Some (negb (ignore_list_has E (lit "the")))).
  { rewrite keep_ascii by reflexivity.
    rewrite (Hclean (lit "the")) by (simpl; auto). reflexivity. }
  repeat split; try assumption.
  intros options Hopt. unfold analyse. rewrite Hopt, Htok.
  assert (Hcanon : canonicalize E [lit "#btc"; lit "to"; lit "the"; lit "moon"]
                   = map VString [lit "#btc"; lit "to"; lit "the"; lit "moon"]).
  { unfold canonicalize.
    rewrite (map_ext_in (alias_of E) VString _ Hplain). reflexivity. }
  rewrite Hcanon. cbn [map filter_words]. rewrite Hto, Hthe.
  rewrite !keep_ascii by reflexivity.
  rewrite (Hclean (lit "#btc")), (Hclean (lit "moon")) by (simpl; auto).
  rewrite Htag, Hmoon.
  destruct (ignore_list_has E (lit "the")); eexists; split; reflexivity.
Qed.

(** The scenario in the sample environment, with ["the"] in the ignore
    list. *)
Lemma scenario_to_the_moon_witness :
  exists r,
    analyse (Sample.env Sample.languages [lit "$"] (lit "the"))
            (lit "#BTC to the moon") None = Return r
    /\ words r = [VString (lit "#btc"); VString (lit "moon")].
Proof.
  refine (proj2 (proj2 (proj2 (proj2 (proj2 (proj2 (proj2
    (@scenario_to_the_moon (Sample.env Sample.languages [lit "$"] (lit "the"))
       eq_refl eq_refl eq_refl _ _ _ _ _ _ eq_refl eq_refl))))))) None eq_refl).
  - discriminate.
  - intros k v [Heq|[]]. injection Heq as <- <-. now apply not_occurs.
  - discriminate.
  - intros k v [Heq|[]]. injection Heq as <- <-. now apply not_occurs.
  - intros i Hi. do 8 (destruct i as [|i]; [reflexivity|]). simpl in Hi. lia.
  - intros sign w [<-|[]] [<-|[<-|[<-|[]]]]; right; now apply not_occurs.
Defined.

(** C2 as stated fails: ["the"] has 3 characters and passes the length
    floor; with an ignore set that has none of the tokens the words are
    [["#btc"; "the"; "moon"]]. *)
Lemma scenario_to_the_moon_keeps_the :
  let E := Sample.env Sample.languages [lit "$"] [] in
  tokens E (lit "#BTC to the moon") = [lit "#btc"; lit "to"; lit "the"; lit "moon"]
  /\ Nat.ltb 2 (length (lit "the")) = true
  /\ ignore_list_has E (lit "#btc") = false
  /\ ignore_list_has E (lit "moon") = false
  /\ analyse E (lit "#BTC to the moon") None
     = Return {| is_chinese := false;
                 words := [VString (lit "#btc"); VString (lit "the");
                           VString (lit "moon")] |}.
Proof.
  repeat split.
Qed.
